(** * A shallow embedding of the educational Redis clone (server.py, client.py)

    The development follows the layout of [server.py]:
    - [Py]      : the pieces of the Python runtime the server relies on
                  (bytes slicing, [bytes.find], [int()], [str], UTF-8,
                  binary64 arithmetic);
    - [Resp]    : the streaming parser [RESPParser] and the reply encoders;
    - [Store]   : the global dictionary [data] with lazy expiration;
    - [Server]  : [handle_command], the drain loop of [handle_client],
                  [save_data] and [load_data];
    - [Wire]    : the frames of the wire protocol, used to state the
                  theorems;
    - [Client]  : [send] and [recv] of [client.py];
    - the theorems: the parser on complete and incomplete frames, chunked
      delivery, malformed prefixes, replies read back, rounding to
      binary64, and the commands SET, TTL, EXPIRE, KEYS with lazy
      expiration and persistence.

    Modelling conventions.
    - [bytes] is [list byte]; [str] is a list of Unicode code points.
    - Indices are [Z], because the parser's positions can become negative
      (a negative declared length) and Python then slices from the end.
    - A clock reading or an expiry stamp is a binary64 value, kept as the
      rational it denotes; the sum of [EXPIRE] and the difference of
      [TTL] are rounded to binary64 ([round64]).  One clock reading is
      taken per dispatched operation.
    - A Python call that may raise returns an explicit outcome. *)

From Stdlib Require Import Strings.Byte Strings.String Strings.Ascii.
From Stdlib Require Import ZArith NArith QArith Qabs Qpower Qround.
From Stdlib Require Import List Bool Lia Lqa.
From Stdlib Require Import DecimalN DecimalZ DecimalPos.
Import ListNotations.
Close Scope Q_scope.
Open Scope Z_scope.

(* ================================================================== *)
(** ** Python runtime primitives *)

Module Py.

Definition bytes := list byte.

Definition CR : byte := x0d.
Definition LF : byte := x0a.
Definition CRLF : bytes := [CR; LF].

(** [len(x)] as a Python integer. *)
Definition len {A} (l : list A) : Z := Z.of_nat (length l).

(** Normalisation of a slice bound: a negative bound counts from the end,
    and every bound is clamped to [0, len]. *)
Definition clamp (n i : Z) : Z :=
  if i <? 0 then Z.max 0 (n + i) else Z.min i n.

(** [l[lo:hi]] *)
Definition slice {A} (l : list A) (lo hi : Z) : list A :=
  let a := clamp (len l) lo in
  let b := clamp (len l) hi in
  firstn (Z.to_nat (b - a)) (skipn (Z.to_nat a) l).

(** [l[lo:]] *)
Definition slice_from {A} (l : list A) (lo : Z) : list A :=
  skipn (Z.to_nat (clamp (len l) lo)) l.

(** [l[:hi]] *)
Definition slice_to {A} (l : list A) (hi : Z) : list A :=
  firstn (Z.to_nat (clamp (len l) hi)) l.

Fixpoint bytes_eqb (a b : bytes) : bool :=
  match a, b with
  | [], [] => true
  | x :: a', y :: b' => Byte.eqb x y && bytes_eqb a' b'
  | _, _ => false
  end.

Fixpoint starts_with (sub l : bytes) : bool :=
  match sub, l with
  | [], _ => true
  | s :: sub', c :: l' => Byte.eqb s c && starts_with sub' l'
  | _ :: _, [] => false
  end.

(** Lowest index (counted from [i]) at which [sub] occurs in [l], or -1. *)
Fixpoint find_at (sub l : bytes) (i : Z) : Z :=
  if starts_with sub l then i
  else match l with
       | [] => -1
       | _ :: t => find_at sub t (i + 1)
       end.

(** [l.find(sub, start)] *)
Definition find (sub l : bytes) (start : Z) : Z :=
  let a := clamp (len l) start in
  find_at sub (skipn (Z.to_nat a) l) a.

(** *** Decimal text of integers: [str(n)], [f"{n}"] *)

Fixpoint digits (u : Decimal.uint) : bytes :=
  match u with
  | Decimal.Nil => []
  | Decimal.D0 v => x30 :: digits v
  | Decimal.D1 v => x31 :: digits v
  | Decimal.D2 v => x32 :: digits v
  | Decimal.D3 v => x33 :: digits v
  | Decimal.D4 v => x34 :: digits v
  | Decimal.D5 v => x35 :: digits v
  | Decimal.D6 v => x36 :: digits v
  | Decimal.D7 v => x37 :: digits v
  | Decimal.D8 v => x38 :: digits v
  | Decimal.D9 v => x39 :: digits v
  end.

(** The ASCII bytes of [str(n)]. *)
Definition dec (n : Z) : bytes :=
  match Z.to_int n with
  | Decimal.Pos u => digits u
  | Decimal.Neg u => x2d :: digits u
  end.

(** *** [int(b)] for a bytes object [b], base 10.

    Leading and trailing ASCII whitespace is stripped, one sign is
    accepted, and single underscores may separate digits.  [None] is
    [ValueError].

    CPython also answers [ValueError] for a literal of more than
    [max_str_digits] digits (the default of [sys.set_int_max_str_digits]).
    [int_of_bytes] is the grammar without that limit: the parser applies
    it to count and length lines, and a theorem that lets such a line
    hold any number assumes the line within the limit
    ([count_digits]).  [int_of_str] below carries the limit. *)

Definition is_space (b : byte) : bool :=
  match b with
  | x20 | x09 | x0a | x0b | x0c | x0d => true
  | _ => false
  end.

Fixpoint lstrip (l : bytes) : bytes :=
  match l with
  | b :: t => if is_space b then lstrip t else l
  | [] => []
  end.

Fixpoint rstrip (l : bytes) : bytes :=
  match l with
  | [] => []
  | b :: t =>
      match rstrip t with
      | [] => if is_space b then [] else [b]
      | t' => b :: t'
      end
  end.

Definition digit_of (b : byte) : option (Decimal.uint -> Decimal.uint) :=
  match b with
  | x30 => Some Decimal.D0 | x31 => Some Decimal.D1 | x32 => Some Decimal.D2
  | x33 => Some Decimal.D3 | x34 => Some Decimal.D4 | x35 => Some Decimal.D5
  | x36 => Some Decimal.D6 | x37 => Some Decimal.D7 | x38 => Some Decimal.D8
  | x39 => Some Decimal.D9
  | _ => None
  end.

(** A non-empty run of digits, single underscores allowed between two
    digits only. *)
Fixpoint digit_run (l : bytes) : option Decimal.uint :=
  match l with
  | [] => None
  | b :: t =>
      match digit_of b with
      | None => None
      | Some d =>
          match t with
          | [] => Some (d Decimal.Nil)
          | x5f :: t' => option_map d (digit_run t')
          | _ :: _ => option_map d (digit_run t)
          end
      end
  end.

Definition int_of_bytes (b : bytes) : option Z :=
  match rstrip (lstrip b) with
  | x2d :: r => option_map (fun u => - Z.of_uint u) (digit_run r)
  | x2b :: r => option_map Z.of_uint (digit_run r)
  | r => option_map Z.of_uint (digit_run r)
  end.

Definition max_str_digits : Z := 4300.

(** The number of digits of a literal, which CPython compares with the
    limit: leading zeros count, the sign, underscores and the stripped
    whitespace do not. *)
Definition count_digits (b : bytes) : Z :=
  len (filter (fun c => match digit_of c with Some _ => true | None => false end)
         b).

(** *** [str]: a sequence of Unicode code points *)

Definition str := list N.

(** A string literal of the source. *)
Definition lit (s : String.string) : str :=
  map N_of_ascii (list_ascii_of_string s).

Fixpoint str_eqb (a b : str) : bool :=
  match a, b with
  | [], [] => true
  | x :: a', y :: b' => N.eqb x y && str_eqb a' b'
  | _, _ => false
  end.

(** The text of [str(n)] as a [str]. *)
Definition dec_str (n : Z) : str := map Byte.to_N (dec n).

Definition byte_of (n : N) : byte :=
  match Byte.of_N n with Some b => b | None => x00 end.

(** *** UTF-8: [s.encode()] and [b.decode()].  [None] is
    [UnicodeEncodeError], respectively [UnicodeDecodeError]. *)

Definition encode_cp (c : N) : option bytes :=
  (if c <? 0x80 then Some [byte_of c]
   else if c <? 0x800 then
     Some [byte_of (0xC0 + c / 64); byte_of (0x80 + c mod 64)]
   else if c <? 0x10000 then
     if (0xD800 <=? c) && (c <=? 0xDFFF) then None
     else Some [byte_of (0xE0 + c / 4096);
                byte_of (0x80 + (c / 64) mod 64);
                byte_of (0x80 + c mod 64)]
   else if c <? 0x110000 then
     Some [byte_of (0xF0 + c / 262144);
           byte_of (0x80 + (c / 4096) mod 64);
           byte_of (0x80 + (c / 64) mod 64);
           byte_of (0x80 + c mod 64)]
   else None)%N.

Fixpoint encode (s : str) : option bytes :=
  match s with
  | [] => Some []
  | c :: t =>
      match encode_cp c, encode t with
      | Some a, Some b => Some (a ++ b)
      | _, _ => None
      end
  end.

(** The payload of a continuation byte [10xxxxxx]. *)
Definition cont (b : byte) : option N :=
  let n := Byte.to_N b in
  (if (0x80 <=? n) && (n <? 0xC0) then Some (n - 0x80) else None)%N.

Fixpoint decode (l : bytes) : option str :=
  match l with
  | [] => Some []
  | b0 :: t =>
      let n0 := Byte.to_N b0 in
      if (n0 <? 0x80)%N then option_map (cons n0) (decode t)
      else if (n0 <? 0xC2)%N then None
      else if (n0 <? 0xE0)%N then
        match t with
        | b1 :: t1 =>
            match cont b1 with
            | Some c1 =>
                option_map (cons ((n0 - 0xC0) * 64 + c1)%N) (decode t1)
            | None => None
            end
        | _ => None
        end
      else if (n0 <? 0xF0)%N then
        match t with
        | b1 :: b2 :: t2 =>
            match cont b1, cont b2 with
            | Some c1, Some c2 =>
                let c := ((n0 - 0xE0) * 4096 + c1 * 64 + c2)%N in
                if ((c <? 0x800) || ((0xD800 <=? c) && (c <=? 0xDFFF)))%N
                then None
                else option_map (cons c) (decode t2)
            | _, _ => None
            end
        | _ => None
        end
      else if (n0 <? 0xF5)%N then
        match t with
        | b1 :: b2 :: b3 :: t3 =>
            match cont b1, cont b2, cont b3 with
            | Some c1, Some c2, Some c3 =>
                let c :=
                  ((n0 - 0xF0) * 262144 + c1 * 4096 + c2 * 64 + c3)%N in
                if ((c <? 0x10000) || (0x10FFFF <? c))%N then None
                else option_map (cons c) (decode t3)
            | _, _, _ => None
            end
        | _ => None
        end
      else None
  end.

(** *** [str.upper()].

    Exact on ASCII.  Outside ASCII Python follows the Unicode case
    tables, which are not part of this repository; the model carries the
    two code points whose upper case is an ASCII letter of a command name
    (U+0131 dotless i, U+017F long s) and leaves every other code point
    unchanged. *)
Definition upper_cp (c : N) : N :=
  (if (97 <=? c) && (c <=? 122) then c - 32
   else if c =? 0x131 then 73
   else if c =? 0x17F then 83
   else c)%N.

Definition upper (s : str) : str := map upper_cp s.

(** *** [str.split()]: split on runs of Unicode whitespace. *)
Definition isspace (c : N) : bool :=
  ((9 <=? c) && (c <=? 13) || (28 <=? c) && (c <=? 32)
   || (c =? 0x85) || (c =? 0xA0) || (c =? 0x1680)
   || (0x2000 <=? c) && (c <=? 0x200A)
   || (c =? 0x2028) || (c =? 0x2029) || (c =? 0x202F)
   || (c =? 0x205F) || (c =? 0x3000))%N.

Definition flush (cur : str) (out : list str) : list str :=
  match cur with
  | [] => out
  | _ :: _ => rev cur :: out
  end.

Fixpoint split_go (s cur : str) : list str :=
  match s with
  | [] => flush cur []
  | c :: t =>
      if isspace c then flush cur (split_go t []) else split_go t (c :: cur)
  end.

Definition split (s : str) : list str := split_go s [].

(** *** [int(s)] for a [str] [s].

    CPython first rewrites the text to ASCII: a code point below 127 is
    kept as it is, a Unicode whitespace from 127 on becomes a space, a
    decimal digit of any script becomes the ASCII digit of its value,
    and anything else becomes [?], which no literal contains.  The
    result is read as [int] reads bytes, so that the separators U+001C
    to U+001F, which [str.isspace] accepts, are not stripped here.  A
    literal of more than [max_str_digits] digits is refused. *)

(** The code points of the digit zero of each script (Unicode 14, the
    tables of CPython 3.11); the nine code points after each of them are
    its digits one to nine. *)
Definition decimal_zeros : list N :=
  [0x30; 0x660; 0x6f0; 0x7c0; 0x966; 0x9e6; 0xa66; 0xae6; 0xb66; 0xbe6;
   0xc66; 0xce6; 0xd66; 0xde6; 0xe50; 0xed0; 0xf20; 0x1040; 0x1090; 0x17e0;
   0x1810; 0x1946; 0x19d0; 0x1a80; 0x1a90; 0x1b50; 0x1bb0; 0x1c40; 0x1c50;
   0xa620; 0xa8d0; 0xa900; 0xa9d0; 0xa9f0; 0xaa50; 0xabf0; 0xff10; 0x104a0;
   0x10d30; 0x11066; 0x110f0; 0x11136; 0x111d0; 0x112f0; 0x11450; 0x114d0;
   0x11650; 0x116c0; 0x11730; 0x118e0; 0x11950; 0x11c50; 0x11d50; 0x11da0;
   0x16a60; 0x16ac0; 0x16b50; 0x1d7ce; 0x1d7d8; 0x1d7e2; 0x1d7ec; 0x1d7f6;
   0x1e140; 0x1e2f0; 0x1e950; 0x1fbf0]%N.

(** [Py_UNICODE_TODECIMAL] *)
Definition decimal (c : N) : option N :=
  match List.find (fun z => (z <=? c) && (c <? z + 10))%N decimal_zeros with
  | Some z => Some (c - z)%N
  | None => None
  end.

Definition int_byte (c : N) : byte :=
  if (c <? 127)%N then byte_of c
  else if isspace c then x20
  else match decimal c with
       | Some d => byte_of (48 + d)
       | None => x3f
       end.

Definition int_of_str (s : str) : option Z :=
  let b := map int_byte s in
  if count_digits b <=? max_str_digits then int_of_bytes b else None.

(** Exceptions that escape the modelled code ([ValueError] is always
    caught where it is raised). *)
Inductive exn : Set :=
| UnicodeDecodeError
| UnicodeEncodeError
| RuntimeError
| KeyError
| OverflowError.

(** The result of a call: a returned value or a raised exception. *)
Inductive outcome (A : Type) : Type :=
| Ret (a : A)
| Raise (e : exn).
Arguments Ret {A} a.
Arguments Raise {A} e.

(** *** [float]: IEEE 754 binary64.

    A finite double is kept as the rational it denotes, in lowest
    terms; [inf] and [-inf] are kept as [2^1024] and [-2^1024], the
    first magnitude beyond every finite double, and any rational of at
    least that magnitude is read as an infinity.  NaN is not
    represented: with a finite clock reading neither the sum of line 155
    nor the difference of line 170 produces it. *)

Definition inf : Q := inject_Z (2 ^ 1024).

Definition isfinite (x : Q) : bool := negb (Qle_bool inf (Qabs x)).

(** The integer nearest to [n / d], for [0 <= n] and [0 < d]; of two
    nearest integers the even one. *)
Definition nearest_even (n d : Z) : Z :=
  let k := n / d in
  match 2 * (n mod d) ?= d with
  | Lt => k
  | Gt => k + 1
  | Eq => if Z.even k then k else k + 1
  end.

(** The binary exponent of [a / d]: the [e] with
    [2^e <= a / d < 2^(e+1)]. *)
Definition exponent (a d : positive) : Z :=
  let e := Z.log2 (Zpos a) - Z.log2 (Zpos d) in
  if Zpos a * 2 ^ Z.max 0 (- e) <? Zpos d * 2 ^ Z.max 0 e then e - 1 else e.

(** The double nearest to [a / d], ties to even: a multiple of the
    quantum [2^q], which leaves 53 significant bits and is never below
    [2^-1074]; [inf] when that multiple reaches [2^1024]. *)
Definition nearest64 (a d : positive) : Q :=
  let q := Z.max (exponent a d - 52) (-1074) in
  let m := nearest_even (Zpos a * 2 ^ Z.max 0 (- q)) (Zpos d * 2 ^ Z.max 0 q) in
  let r := Qred (inject_Z m * Qpower 2 q) in
  if Qle_bool inf r then inf else r.

(** Rounding of an exact result to binary64, as every arithmetic
    operation on doubles does. *)
Definition round64 (x : Q) : Q :=
  match Qnum x with
  | Z0 => 0%Q
  | Zpos a => nearest64 a (Qden x)
  | Zneg a => (- nearest64 a (Qden x))%Q
  end.

(** [a + b] and [a - b] on doubles; an infinite operand is the result
    (the clock reading, the other operand, is finite). *)
Definition fadd (a b : Q) : Q :=
  if isfinite a then (if isfinite b then round64 (a + b) else b) else a.

Definition fsub (a b : Q) : Q := fadd a (- b).

(** The conversion of an [int] operand in [float + int]: the nearest
    double, [OverflowError] when that is beyond the finite doubles. *)
Definition float_of_int (z : Z) : outcome Q :=
  let x := round64 (inject_Z z) in
  if isfinite x then Ret x else Raise OverflowError.

End Py.

Import Py.

(* ================================================================== *)
(** ** The streaming parser and the reply encoders *)

Module Resp.

(** [class RESPParser]: the only field is the receive buffer. *)
Record RESPParser : Set := { buffer : bytes }.

Definition init : RESPParser := {| buffer := [] |}.

Definition feed (p : RESPParser) (data : bytes) : RESPParser :=
  {| buffer := buffer p ++ data |}.

(** [_parse_bulk_string_at(start)]: [Ret None] is the Python [None],
    [Ret (Some (value, new_pos))] the returned pair. *)
Definition _parse_bulk_string_at (buf : bytes) (start : Z)
  : outcome (option (str * Z)) :=
  if (start >=? len buf) || negb (bytes_eqb (slice buf start (start + 1)) [x24])
  then Ret None
  else
    let e := find CRLF buf start in
    if e =? -1 then Ret None
    else
      match int_of_bytes (slice buf (start + 1) e) with
      | None => Ret None
      | Some length =>
          let data_start := e + 2 in
          let data_end := data_start + length in
          if len buf <? data_end + 2 then Ret None
          else
            match decode (slice buf data_start data_end) with
            | None => Raise UnicodeDecodeError
            | Some v => Ret (Some (v, data_end + 2))
            end
      end.

(** The [for _ in range(count)] loop of [_parse_array]. *)
Fixpoint parse_items (buf : bytes) (count : nat) (pos : Z) (args : list str)
  : outcome (option (list str * Z)) :=
  match count with
  | O => Ret (Some (args, pos))
  | S c =>
      match _parse_bulk_string_at buf pos with
      | Raise e => Raise e
      | Ret None => Ret None
      | Ret (Some (value, new_pos)) =>
          parse_items buf c new_pos (args ++ [value])
      end
  end.

Definition _parse_array (p : RESPParser)
  : outcome (option (list str)) * RESPParser :=
  let buf := buffer p in
  let e := find CRLF buf 0 in
  if e =? -1 then (Ret None, p)
  else
    match int_of_bytes (slice buf 1 e) with
    | None => (Ret None, {| buffer := slice_from buf 1 |})
    | Some count =>
        match parse_items buf (Z.to_nat count) (e + 2) [] with
        | Raise x => (Raise x, p)
        | Ret None => (Ret None, p)
        | Ret (Some (args, pos)) =>
            (Ret (Some args), {| buffer := slice_from buf pos |})
        end
    end.

Definition _parse_inline (p : RESPParser)
  : outcome (option (list str)) * RESPParser :=
  let buf := buffer p in
  let e := find CRLF buf 0 in
  if e =? -1 then (Ret None, p)
  else
    match decode (slice_to buf e) with
    | None => (Raise UnicodeDecodeError, p)
    | Some line => (Ret (Some (split line)), {| buffer := slice_from buf (e + 2) |})
    end.

Definition get_command (p : RESPParser)
  : outcome (option (list str)) * RESPParser :=
  match buffer p with
  | [] => (Ret None, p)
  | _ :: _ =>
      if bytes_eqb (slice (buffer p) 0 1) [x2a] then _parse_array p
      else _parse_inline p
  end.

(** *** RESP responses *)

Definition crlf : str := [13%N; 10%N].

(** [s.encode()] as a call that may raise. *)
Definition encoded (s : str) : outcome bytes :=
  match encode s with
  | Some b => Ret b
  | None => Raise UnicodeEncodeError
  end.

Definition simple_string (msg : str) : outcome bytes :=
  encoded (lit "+" ++ msg ++ crlf).

Definition error (msg : str) : outcome bytes :=
  encoded (lit "-" ++ msg ++ crlf).

(** The text [f"${len(val)}\r\n{val}\r\n"], built by [bulk_string] and by
    the [KEYS] branch of [handle_command]. *)
Definition bulk_text (val : str) : str :=
  lit "$" ++ dec_str (len val) ++ crlf ++ val ++ crlf.

Definition bulk_string (val : option str) : outcome bytes :=
  match val with
  | None => Ret [x24; x2d; x31; CR; LF]
  | Some v => encoded (bulk_text v)
  end.

Definition integer (val : Z) : outcome bytes :=
  encoded (lit ":" ++ dec_str val ++ crlf).

End Resp.

Import Resp.

(* ================================================================== *)
(** ** The key-value store: the global dictionary [data] *)

Module Store.

(** An entry is the pair [(value, expires_at)]; [expires_at] is [None]
    or an absolute time. *)
Definition entry : Type := str * option Q.

(** A Python [dict] keeps its keys in insertion order, which [KEYS] and
    [save_data] expose: an association list, first binding of a key
    wins. *)
Definition dict : Type := list (str * entry).

Fixpoint lookup {V} (k : str) (d : list (str * V)) : option V :=
  match d with
  | [] => None
  | (k', v) :: t => if str_eqb k k' then Some v else lookup k t
  end.

(** [k in d] *)
Definition contains {V} (k : str) (d : list (str * V)) : bool :=
  match lookup k d with Some _ => true | None => false end.

(** [d[k]], which raises [KeyError] on a missing key. *)
Definition item {V} (k : str) (d : list (str * V)) : outcome V :=
  match lookup k d with Some v => Ret v | None => Raise KeyError end.

(** [d[k] = v]: an existing key keeps its position, a new key goes last. *)
Fixpoint assign {V} (k : str) (v : V) (d : list (str * V)) : list (str * V) :=
  match d with
  | [] => [(k, v)]
  | (k', v') :: t =>
      if str_eqb k k' then (k, v) :: t else (k', v') :: assign k v t
  end.

(** [del d[k]] for a key that is present. *)
Fixpoint remove {V} (k : str) (d : list (str * V)) : list (str * V) :=
  match d with
  | [] => []
  | (k', v') :: t =>
      if str_eqb k k' then remove k t else (k', v') :: remove k t
  end.

(** [a > b] on clock readings. *)
Definition Qgt_bool (a b : Q) : bool := negb (Qle_bool a b).

(** The test [expires_at and time.time() > expires_at]: the first
    conjunct is Python truthiness, false for [None] and for [0.0]. *)
Definition timed_out (now : Q) (expires_at : option Q) : bool :=
  match expires_at with
  | None => false
  | Some t => negb (Qeq_bool t 0) && Qgt_bool now t
  end.

Definition is_expired (now : Q) (key : str) (data : dict) : bool * dict :=
  match lookup key data with
  | None => (true, data)
  | Some (value, expires_at) =>
      if timed_out now expires_at then (true, remove key data)
      else (false, data)
  end.

Definition get_value (now : Q) (key : str) (data : dict)
  : outcome (option str) * dict :=
  let (expired, data') := is_expired now key data in
  if expired then (Ret None, data')
  else
    match item key data' with
    | Ret (value, _) => (Ret (Some value), data')
    | Raise e => (Raise e, data')
    end.

Definition set_value (key value : str) (expires_at : option Q) (data : dict)
  : dict :=
  assign key (value, expires_at) data.

End Store.

Import Store.

(* ================================================================== *)
(** ** Command dispatch, the drain loop and persistence *)

Module Server.

(** [int(x)] for a clock difference: truncation towards zero. *)
Definition Qtrunc (x : Q) : Z := Z.quot (Qnum x) (Zpos (Qden x)).

(** [int(x)] for any double: [OverflowError] for an infinity. *)
Definition int_of_float (x : Q) : outcome Z :=
  if isfinite x then Ret (Qtrunc x) else Raise OverflowError.

(** Line 179 of [handle_command]: the generator handed to [sum] pops
    every named key that is present; its total is overwritten on the
    next line. *)
Definition del_pop (data : dict) (k : str) : dict :=
  if contains k data then remove k data else data.

(** Lines 180-184: the counting loop. *)
Definition del_count (st : dict * Z) (key : str) : dict * Z :=
  let (data, count) := st in
  if contains key data then (remove key data, count + 1) else (data, count).

(** The comprehension [[k for k in data.keys() if not is_expired(k)]].
    [is_expired] deletes from the dictionary being iterated; the
    iterator then finds the size changed at its next step and raises
    [RuntimeError]. *)
Fixpoint live_keys (now : Q) (ks : list str) (data : dict) (acc : list str)
  : outcome (list str) * dict :=
  match ks with
  | [] => (Ret acc, data)
  | k :: ks' =>
      let (expired, data') := is_expired now k data in
      if negb (length data' =? length data)%nat then (Raise RuntimeError, data')
      else live_keys now ks' data' (if expired then acc else acc ++ [k])
  end.

(** The text built by the [KEYS] branch before [.encode()]. *)
Definition keys_text (keys : list str) : str :=
  lit "*" ++ dec_str (len keys) ++ crlf ++ concat (map bulk_text keys).

Definition wrong_args (cmd : String.string) : outcome bytes :=
  error (lit "ERR wrong number of arguments for '" ++ lit cmd ++ lit "'").

(** [handle_command(args)] at clock reading [now], on the store [data]. *)
Definition handle_command (now : Q) (args : list str) (data : dict)
  : outcome bytes * dict :=
  match args with
  | [] => (error (lit "ERR empty command"), data)
  | a0 :: rest =>
      let cmd := upper a0 in
      if str_eqb cmd (lit "PING") then (simple_string (lit "PONG"), data)
      else if str_eqb cmd (lit "SET") then
        if (length args <? 3)%nat then (wrong_args "SET", data)
        else (simple_string (lit "OK"),
              set_value (nth 1 args []) (nth 2 args []) None data)
      else if str_eqb cmd (lit "GET") then
        if (length args <? 2)%nat then (wrong_args "GET", data)
        else
          match get_value now (nth 1 args []) data with
          | (Ret v, data') => (bulk_string v, data')
          | (Raise e, data') => (Raise e, data')
          end
      else if str_eqb cmd (lit "EXPIRE") then
        if (length args <? 3)%nat then (wrong_args "EXPIRE", data)
        else
          match int_of_str (nth 2 args []) with
          | None => (error (lit "ERR value is not an integer"), data)
          | Some seconds =>
              let key := nth 1 args [] in
              if negb (contains key data) then (integer 0, data)
              else
                let (expired, data') := is_expired now key data in
                if expired then (integer 0, data')
                else
                  match item key data' with
                  | Raise e => (Raise e, data')
                  | Ret (value, _) =>
                      match float_of_int seconds with
                      | Raise e => (Raise e, data')
                      | Ret s =>
                          (integer 1, assign key (value, Some (fadd now s)) data')
                      end
                  end
          end
      else if str_eqb cmd (lit "TTL") then
        if (length args <? 2)%nat then (wrong_args "TTL", data)
        else
          let key := nth 1 args [] in
          match lookup key data with
          | None => (integer (-2), data)
          | Some (value, None) => (integer (-1), data)
          | Some (value, Some expires_at) =>
              match int_of_float (fsub expires_at now) with
              | Raise e => (Raise e, data)
              | Ret remaining =>
                  if remaining <? 0 then (integer (-2), remove key data)
                  else (integer remaining, data)
              end
          end
      else if str_eqb cmd (lit "DEL") then
        if (length args <? 2)%nat then (wrong_args "DEL", data)
        else
          let data1 := fold_left del_pop rest data in
          let (data2, count) := fold_left del_count rest (data1, 0) in
          (integer count, data2)
      else if str_eqb cmd (lit "KEYS") then
        match live_keys now (map fst data) data [] with
        | (Raise e, data') => (Raise e, data')
        | (Ret keys, data') => (encoded (keys_text keys), data')
        end
      else
        (error (lit "ERR unknown command '" ++ cmd ++ lit "'"), data)
  end.

(** The inner [while True] loop of [handle_client] (lines 213-218), with
    every extracted command dispatched at the clock reading of its turn
    and its reply written: the loop is left when [get_command] answers
    [None] (the [break]), or when [get_command] or [handle_command]
    raises, which ends the connection with the rest of the buffer
    unread.  The writes themselves are taken to succeed.  The loop need
    not terminate, hence the fuel; [None] is fuel exhausted.  The result
    holds the replies written, the exception if one was raised, the
    parser and the store. *)
Fixpoint serve (fuel : nat) (clock : nat -> Q) (tick : nat)
  (p : RESPParser) (data : dict)
  : option (list bytes * option exn * RESPParser * dict) :=
  match fuel with
  | O => None
  | S fuel' =>
      match get_command p with
      | (Raise e, p') => Some ([], Some e, p', data)
      | (Ret None, p') => Some ([], None, p', data)
      | (Ret (Some command), p') =>
          match handle_command (clock tick) command data with
          | (Raise e, data') => Some ([], Some e, p', data')
          | (Ret reply, data') =>
              match serve fuel' clock (S tick) p' data' with
              | None => None
              | Some (rs, e, p'', data'') => Some (reply :: rs, e, p'', data'')
              end
          end
      end
  end.

(** Commands dispatched one after the other from clock tick [tick] on,
    up to the first one that raises: the replies, the exception if any,
    the commands not reached, and the store.  [serve] on pipelined
    frames is stated against it. *)
Fixpoint run (clock : nat -> Q) (tick : nat) (cmds : list (list str))
  (data : dict) : list bytes * option exn * list (list str) * dict :=
  match cmds with
  | [] => ([], None, [], data)
  | command :: more =>
      match handle_command (clock tick) command data with
      | (Raise e, data') => ([], Some e, more, data')
      | (Ret reply, data') =>
          let '(rs, e, rest, data'') := run clock (S tick) more data' in
          (reply :: rs, e, rest, data'')
      end
  end.

(** The same loop seen from the parser alone, for the statements that
    do not depend on what the dispatcher answers: commands are extracted
    until [get_command] answers [None] or raises.  [None] is fuel
    exhausted. *)
Fixpoint drain (fuel : nat) (p : RESPParser)
  : option (list (list str) * option exn * RESPParser) :=
  match fuel with
  | O => None
  | S fuel' =>
      match get_command p with
      | (Raise e, p') => Some ([], Some e, p')
      | (Ret None, p') => Some ([], None, p')
      | (Ret (Some command), p') =>
          match drain fuel' p' with
          | None => None
          | Some (cs, e, p'') => Some (command :: cs, e, p'')
          end
      end
  end.

(** The outer loop of [handle_client] over the chunks read before end of
    file: feed, then drain.  An exception ends the connection. *)
Fixpoint feed_all (fuel : nat) (p : RESPParser) (chunks : list bytes)
  : option (list (list str) * option exn * RESPParser) :=
  match chunks with
  | [] => Some ([], None, p)
  | chunk :: more =>
      match drain fuel (feed p chunk) with
      | None => None
      | Some (cs, Some e, p') => Some (cs, Some e, p')
      | Some (cs, None, p') =>
          match feed_all fuel p' more with
          | None => None
          | Some (cs', e, p'') => Some (cs ++ cs', e, p'')
          end
      end
  end.

(** *** Persistence *)

(** The JSON object of the snapshot file: key to
    [{"value": ..., "expires_at": ...}], in file order. *)
Definition snapshot : Type := list (str * entry).

(** One step of the loops of [save_data] and [load_data]: a record that
    has timed out is skipped, any other is stored under its key. *)
Definition keep_live (now : Q) (acc : list (str * entry)) (r : str * entry)
  : list (str * entry) :=
  let '(key, (value, expires_at)) := r in
  if timed_out now expires_at then acc
  else assign key (value, expires_at) acc.

(** The records the loops of [save_data] and [load_data] keep. *)
Definition kept (now : Q) (r : str * entry) : bool :=
  negb (timed_out now (snd (snd r))).

(** [save_data()]: the object handed to [json.dump]. *)
Definition save_data (now : Q) (data : dict) : snapshot :=
  fold_left (keep_live now) data [].

(** [load_data()]: [file] is [None] when the snapshot file does not
    exist. *)
Definition load_data (now : Q) (file : option snapshot) (data : dict) : dict :=
  match file with
  | None => data
  | Some saved => fold_left (keep_live now) saved data
  end.

End Server.

Import Server.

(* ================================================================== *)
(** ** Frames of the wire protocol

    The byte layouts that [client.py]'s [send] and the [KEYS] reply
    produce and that the parser reads: [*<n>\r\n] followed by [n]
    elements [$<len>\r\n<payload>] and two more bytes, which are [\r\n]
    in a correctly terminated frame. *)

Module Wire.

(** An element: its payload and the two bytes that follow it. *)
Definition element : Type := bytes * (byte * byte).

Definition terminated (p : bytes) : element := (p, (CR, LF)).

Definition bulk_frame (el : element) : bytes :=
  x24 :: dec (len (fst el)) ++ CRLF ++ fst el ++ [fst (snd el); snd (snd el)].

Definition array_header (n : nat) : bytes :=
  x2a :: dec (Z.of_nat n) ++ CRLF.

Definition array_body (els : list element) : bytes :=
  concat (map bulk_frame els).

Definition array_frame (els : list element) : bytes :=
  array_header (length els) ++ array_body els.

(** [p.decode()] for each payload in turn; [None] as soon as one of
    them is not UTF-8. *)
Fixpoint decode_all (ps : list bytes) : option (list str) :=
  match ps with
  | [] => Some []
  | p :: t =>
      match decode p with
      | None => None
      | Some v => option_map (cons v) (decode_all t)
      end
  end.

(** The bytes of an ASCII literal. *)
Definition ascii_bytes (s : String.string) : bytes := map byte_of (lit s).

(** Frames lying back to back, as a client that pipelines its commands
    writes them. *)
Definition pipeline (cmds : list (list bytes)) : bytes :=
  concat (map (fun ps => array_frame (map terminated ps)) cmds).

(** The frame [*1\r\n$x\r\n]: a well-formed header and one element whose
    length is not a number. *)
Definition bad_length_frame : bytes :=
  array_header 1 ++ [x24; x78; CR; LF].

(** A byte string without a carriage return. *)
Definition no_cr (l : bytes) : Prop := Forall (fun b => b <> CR) l.

(** A [str] all of whose code points are ASCII. *)
Definition is_ascii (s : str) : Prop := Forall (fun c => (c < 128)%N) s.

End Wire.

Import Wire.

(* ================================================================== *)
(** ** The client: [client.py] *)

Module Client.

(** [sep.join(parts)] *)
Fixpoint join (sep : str) (parts : list str) : str :=
  match parts with
  | [] => []
  | p :: t =>
      match t with
      | [] => p
      | _ :: _ => p ++ sep ++ join sep t
      end
  end.

(** The list [parts] of [send]: the count, then for each argument its
    length and the argument. *)
Definition send_parts (args : list str) : list str :=
  (lit "*" ++ dec_str (len args))
  :: flat_map (fun arg => [lit "$" ++ dec_str (len arg); arg]) args.

(** [send(sock, *args)]: the bytes handed to [sock.sendall].  The
    arguments are the words of the input line, so [str(arg)] is [arg]. *)
Definition send (args : list str) : outcome bytes :=
  match encode (join crlf (send_parts args)) with
  | Some b => Ret (b ++ CRLF)
  | None => Raise UnicodeEncodeError
  end.

(** [s.strip()] *)
Fixpoint lstrip_ws (s : str) : str :=
  match s with
  | c :: t => if isspace c then lstrip_ws t else s
  | [] => []
  end.

Fixpoint rstrip_ws (s : str) : str :=
  match s with
  | [] => []
  | c :: t =>
      match rstrip_ws t with
      | [] => if isspace c then [] else [c]
      | t' => c :: t'
      end
  end.

Definition strip (s : str) : str := rstrip_ws (lstrip_ws s).

(** [s.split("\r\n")]: [cur] holds the current piece, reversed. *)
Fixpoint split_crlf_go (s cur : str) : list str :=
  match s with
  | [] => [rev cur]
  | c :: t =>
      match t with
      | d :: t' =>
          if ((c =? 13) && (d =? 10))%N then rev cur :: split_crlf_go t' []
          else split_crlf_go t (c :: cur)
      | [] => [rev (c :: cur)]
      end
  end.

Definition split_crlf (s : str) : list str := split_crlf_go s [].

(** What [recv] can raise: [UnicodeDecodeError] from [decode],
    [ValueError] from [int], [IndexError] from [lines[1]]. *)
Inductive failure : Set :=
| DecodeFailure
| ValueFailure
| IndexFailure.

Inductive shown : Set :=
| Text (s : str)
| Fails (e : failure).

(** [recv(sock)], as a function of the bytes that have arrived on the
    socket, of which [sock.recv(1024)] hands over at most 1024. *)
Definition recv (arrived : bytes) : shown :=
  match decode (firstn 1024 arrived) with
  | None => Fails DecodeFailure
  | Some data =>
      match data with
      | [] => Text (lit "(no response)")
      | c :: rest =>
          if (c =? 43)%N then Text (strip rest)
          else if (c =? 45)%N then Text (lit "(error) " ++ strip rest)
          else if (c =? 36)%N then
            let lines := split_crlf data in
            match int_of_str (tl (nth 0 lines [])) with
            | None => Fails ValueFailure
            | Some n =>
                if n =? -1 then Text (lit "(nil)")
                else
                  match tl lines with
                  | l1 :: _ => Text ([34%N] ++ l1 ++ [34%N])
                  | [] => Fails IndexFailure
                  end
            end
          else Text (strip data)
      end
  end.

(** Strings made of whitespace only, and strings without whitespace. *)
Definition all_space (w : str) : Prop := Forall (fun c => isspace c = true) w.
Definition no_space (s : str) : Prop := Forall (fun c => isspace c = false) s.

(** A [str] without a carriage return. *)
Definition no_cr_str (s : str) : Prop := Forall (fun c => c <> 13%N) s.

End Client.

Import Client.

(* ================================================================== *)
(** ** Facts about the runtime primitives *)

Section ListFacts.
Context {A : Type}.
Implicit Types l pre mid post : list A.

Lemma len_nonneg l : 0 <= len l.
Proof. unfold len; lia. Qed.

Lemma len_app l post : len (l ++ post) = len l + len post.
Proof. unfold len; rewrite length_app; lia. Qed.

Lemma len_cons (x : A) l : len (x :: l) = 1 + len l.
Proof. unfold len; simpl length; lia. Qed.

Lemma len_nil : len (@nil A) = 0.
Proof. reflexivity. Qed.

Lemma clamp_id n i : 0 <= i <= n -> clamp n i = i.
Proof.
  intros H; unfold clamp.
  destruct (i <? 0) eqn:E; [apply Z.ltb_lt in E; lia | lia].
Qed.

Lemma skipn_len_app pre post : skipn (Z.to_nat (len pre)) (pre ++ post) = post.
Proof.
  unfold len; rewrite Nat2Z.id.
  induction pre as [|x pre IH]; simpl; auto.
Qed.

Lemma firstn_len_app mid post : firstn (Z.to_nat (len mid)) (mid ++ post) = mid.
Proof.
  unfold len; rewrite Nat2Z.id.
  induction mid as [|x mid IH]; simpl; [reflexivity | now rewrite IH].
Qed.

(** A slice that cuts out exactly the middle of three pieces. *)
Lemma slice_mid pre mid post lo hi :
  lo = len pre -> hi = len pre + len mid ->
  slice (pre ++ mid ++ post) lo hi = mid.
Proof.
  intros -> ->; unfold slice.
  pose proof (len_nonneg pre); pose proof (len_nonneg mid);
    pose proof (len_nonneg post).
  rewrite !clamp_id by (rewrite !len_app; lia).
  replace (len pre + len mid - len pre) with (len mid) by lia.
  now rewrite skipn_len_app, firstn_len_app.
Qed.

Lemma slice_from_app pre post lo :
  lo = len pre -> slice_from (pre ++ post) lo = post.
Proof.
  intros ->; unfold slice_from.
  pose proof (len_nonneg pre); pose proof (len_nonneg post).
  rewrite clamp_id by (rewrite len_app; lia).
  apply skipn_len_app.
Qed.

Lemma slice_to_app pre post hi :
  hi = len pre -> slice_to (pre ++ post) hi = pre.
Proof.
  intros ->; unfold slice_to.
  pose proof (len_nonneg pre); pose proof (len_nonneg post).
  rewrite clamp_id by (rewrite len_app; lia).
  apply firstn_len_app.
Qed.

End ListFacts.

(** *** [find] of the line terminator *)

Lemma starts_with_crlf_other (b : byte) (l : bytes) :
  b <> CR -> starts_with CRLF (b :: l) = false.
Proof.
  intros H; simpl.
  destruct (Byte.eqb CR b) eqn:E; [|reflexivity].
  apply Byte.byte_dec_bl in E; congruence.
Qed.

Lemma find_at_hit (d post : bytes) (i : Z) :
  no_cr d -> find_at CRLF (d ++ CR :: LF :: post) i = i + len d.
Proof.
  intros H; revert i; induction H as [|b d Hb Hd IH]; intros i.
  - simpl; rewrite len_nil; lia.
  - change ((b :: d) ++ CR :: LF :: post) with (b :: (d ++ CR :: LF :: post)).
    unfold find_at; fold find_at.
    rewrite starts_with_crlf_other by assumption.
    rewrite IH, len_cons; lia.
Qed.

(** No terminator is found in a prefix of [d ++ [CR]]. *)
Lemma find_at_miss (d b rest : bytes) (i : Z) :
  no_cr d -> b ++ rest = d ++ [CR] -> find_at CRLF b i = -1.
Proof.
  intros H; revert b i; induction H as [|x d Hx Hd IH]; intros b i E.
  - destruct b as [|y b]; [reflexivity|].
    simpl in E; injection E as -> Eb.
    apply app_eq_nil in Eb as [-> _]; reflexivity.
  - destruct b as [|y b]; [reflexivity|].
    simpl in E; injection E as -> Eb.
    unfold find_at; fold find_at.
    rewrite starts_with_crlf_other by assumption.
    now apply IH.
Qed.

Lemma find_from (pre rest : bytes) (start : Z) :
  start = len pre ->
  find CRLF (pre ++ rest) start = find_at CRLF rest (len pre).
Proof.
  intros ->; unfold find.
  pose proof (len_nonneg pre); pose proof (len_nonneg rest).
  rewrite clamp_id by (rewrite len_app; lia).
  now rewrite skipn_len_app.
Qed.

(** *** Decimal text is read back by [int()] *)

Lemma digit_run_digits (u : Decimal.uint) :
  u <> Decimal.Nil -> digit_run (digits u) = Some u.
Proof.
  induction u as [|v IH|v IH|v IH|v IH|v IH|v IH|v IH|v IH|v IH|v IH];
    intros Hn; [congruence|..];
    (destruct v; [reflexivity|..];
     simpl digits in *; simpl digit_run in *;
     rewrite IH by discriminate; reflexivity).
Qed.

Lemma digits_no_space (u : Decimal.uint) :
  Forall (fun b => is_space b = false) (digits u).
Proof. induction u; simpl; constructor; auto. Qed.

Lemma digits_no_cr (u : Decimal.uint) : no_cr (digits u).
Proof. induction u; simpl; constructor; auto; discriminate. Qed.

Lemma rstrip_no_space (l : bytes) :
  Forall (fun b => is_space b = false) l -> rstrip l = l.
Proof.
  induction 1 as [|b l Hb Hl IH]; [reflexivity|].
  simpl; rewrite IH; destruct l; [now rewrite Hb | reflexivity].
Qed.

Lemma lstrip_no_space (l : bytes) :
  Forall (fun b => is_space b = false) l -> lstrip l = l.
Proof. destruct 1 as [|b l Hb Hl]; simpl; [|rewrite Hb]; reflexivity. Qed.

Lemma dec_no_cr (n : Z) : no_cr (dec n).
Proof.
  unfold dec; destruct (Z.to_int n); [|constructor; [discriminate|]];
    apply digits_no_cr.
Qed.

Lemma to_int_nonnil (n : Z) :
  match Z.to_int n with Decimal.Pos u | Decimal.Neg u => u <> Decimal.Nil end.
Proof.
  destruct n; simpl; try apply DecimalPos.Unsigned.to_uint_nonnil.
  discriminate.
Qed.

Lemma int_of_bytes_dec (n : Z) : int_of_bytes (dec n) = Some n.
Proof.
  pose proof (DecimalZ.of_to n) as R; pose proof (to_int_nonnil n) as Hn.
  unfold dec, int_of_bytes.
  destruct (Z.to_int n) as [u|u]; simpl Z.of_int in R.
  - rewrite lstrip_no_space, rstrip_no_space by apply digits_no_space.
    pose proof (digit_run_digits u Hn) as E; rewrite <- R.
    destruct u; try congruence; cbn [digits] in *; rewrite E; reflexivity.
  - assert (Hs : Forall (fun b => is_space b = false) (x2d :: digits u))
      by (constructor; [reflexivity | apply digits_no_space]).
    rewrite lstrip_no_space, rstrip_no_space by exact Hs.
    rewrite digit_run_digits by assumption.
    simpl; now rewrite R.
Qed.

(* ================================================================== *)
(** ** The parser on frames *)

Ltac list_eq :=
  unfold bulk_frame, array_frame, array_header, array_body, CRLF;
  repeat first [rewrite <- app_assoc | progress cbn [fst snd concat map app]];
  reflexivity.

Lemma geb_false (a b : Z) : a < b -> (a >=? b) = false.
Proof. intros H; rewrite Z.geb_leb; now apply Z.leb_gt. Qed.

Lemma len_bulk_frame (el : element) :
  len (bulk_frame el) = 1 + len (dec (len (fst el))) + 2 + len (fst el) + 2.
Proof.
  unfold bulk_frame, CRLF.
  rewrite len_cons, !len_app, !len_cons, len_nil; lia.
Qed.

(** A complete element is read whatever the two bytes after its payload
    are. *)
Lemma bulk_at (pre : bytes) (el : element) (post : bytes) :
  _parse_bulk_string_at (pre ++ bulk_frame el ++ post) (len pre)
  = match decode (fst el) with
    | None => Raise UnicodeDecodeError
    | Some v => Ret (Some (v, len pre + len (bulk_frame el)))
    end.
Proof.
  destruct el as [p [t1 t2]].
  rewrite len_bulk_frame; cbn [fst snd].
  set (D := dec (len p)).
  remember (pre ++ bulk_frame (p, (t1, t2)) ++ post) as buf eqn:Eb.
  pose proof (len_nonneg pre); pose proof (len_nonneg D);
    pose proof (len_nonneg p); pose proof (len_nonneg post).
  assert (L : len buf = len pre + 1 + len D + 2 + len p + 2 + len post).
  { subst buf; rewrite !len_app, len_bulk_frame; cbn [fst]; fold D; lia. }
  assert (S1 : slice buf (len pre) (len pre + 1) = [x24]).
  { subst buf.
    replace (pre ++ bulk_frame (p, (t1, t2)) ++ post)
      with (pre ++ [x24] ++ (D ++ CRLF ++ p ++ [t1; t2] ++ post)) by list_eq.
    now apply slice_mid. }
  assert (F : find CRLF buf (len pre) = len pre + 1 + len D).
  { subst buf.
    replace (pre ++ bulk_frame (p, (t1, t2)) ++ post)
      with (pre ++ ((x24 :: D) ++ CR :: LF :: (p ++ [t1; t2] ++ post)))
      by list_eq.
    rewrite find_from by reflexivity.
    rewrite find_at_hit, len_cons;
      [lia | constructor; [discriminate | apply dec_no_cr]]. }
  assert (S2 : slice buf (len pre + 1) (len pre + 1 + len D) = D).
  { subst buf.
    replace (pre ++ bulk_frame (p, (t1, t2)) ++ post)
      with ((pre ++ [x24]) ++ D ++ (CRLF ++ p ++ [t1; t2] ++ post))
      by list_eq.
    apply slice_mid; rewrite len_app, len_cons, len_nil; lia. }
  assert (S3 : slice buf (len pre + 1 + len D + 2)
                 (len pre + 1 + len D + 2 + len p) = p).
  { subst buf.
    replace (pre ++ bulk_frame (p, (t1, t2)) ++ post)
      with ((pre ++ x24 :: D ++ CRLF) ++ p ++ ([t1; t2] ++ post))
      by list_eq.
    apply slice_mid; unfold CRLF;
      rewrite !len_app, !len_cons, !len_app, !len_cons, len_nil; lia. }
  clear Eb.
  unfold _parse_bulk_string_at; cbv zeta.
  rewrite F, S1, S2, geb_false by lia.
  replace (int_of_bytes D) with (Some (len p))
    by (symmetry; apply int_of_bytes_dec).
  change (bytes_eqb [x24] [x24]) with true; cbn [negb orb].
  replace (len pre + 1 + len D =? -1) with false by (symmetry; apply Z.eqb_neq; lia).
  replace (len buf <? len pre + 1 + len D + 2 + len p + 2) with false
    by (symmetry; apply Z.ltb_ge; lia).
  rewrite S3.
  destruct (decode p); [|reflexivity].
  now rewrite !Z.add_assoc.
Qed.

Lemma array_body_cons (el : element) (els : list element) :
  array_body (el :: els) = bulk_frame el ++ array_body els.
Proof. reflexivity. Qed.

(** The element loop on a complete body. *)
Lemma items_at (els : list element) : forall (pre post : bytes) (acc : list str),
  parse_items (pre ++ array_body els ++ post) (length els) (len pre) acc
  = match decode_all (map fst els) with
    | None => Raise UnicodeDecodeError
    | Some vs => Ret (Some (acc ++ vs, len pre + len (array_body els)))
    end.
Proof.
  induction els as [|el els IH]; intros pre post acc.
  - cbn; now rewrite app_nil_r, Z.add_0_r.
  - rewrite array_body_cons, <- app_assoc.
    cbn [length parse_items map decode_all].
    rewrite bulk_at.
    destruct (decode (fst el)) as [v|]; [|reflexivity].
    rewrite app_assoc, <- len_app, IH.
    destruct (decode_all (map fst els)) as [vs|]; [|reflexivity].
    cbn [option_map].
    now rewrite <- app_assoc, !len_app, Z.add_assoc.
Qed.

Lemma len_array_header (n : nat) :
  len (array_header n) = 1 + len (dec (Z.of_nat n)) + 2.
Proof.
  unfold array_header, CRLF.
  rewrite len_cons, len_app, !len_cons, len_nil; lia.
Qed.

(** The header of a buffer that starts with a complete array header. *)
Lemma header_at (n : nat) (rest : bytes) :
  let buf := array_header n ++ rest in
  slice buf 0 1 = [x2a]
  /\ find CRLF buf 0 = 1 + len (dec (Z.of_nat n))
  /\ slice buf 1 (1 + len (dec (Z.of_nat n))) = dec (Z.of_nat n).
Proof.
  cbv zeta; set (D := dec (Z.of_nat n)).
  pose proof (len_nonneg D).
  split; [|split].
  - replace (array_header n ++ rest)
      with ([] ++ [x2a] ++ (D ++ CRLF ++ rest)) by list_eq.
    now apply slice_mid.
  - replace (array_header n ++ rest)
      with ([] ++ ((x2a :: D) ++ CR :: LF :: rest)) by list_eq.
    rewrite find_from by reflexivity.
    rewrite find_at_hit, len_cons, len_nil;
      [lia | constructor; [discriminate | apply dec_no_cr]].
  - replace (array_header n ++ rest)
      with ([x2a] ++ D ++ (CRLF ++ rest)) by list_eq.
    apply slice_mid; rewrite len_cons, len_nil; lia.
Qed.

(** [get_command] on a buffer that starts with a complete frame. *)
Lemma array_at (els : list element) (post : bytes) :
  get_command {| buffer := array_frame els ++ post |}
  = match decode_all (map fst els) with
    | None =>
        (Raise UnicodeDecodeError, {| buffer := array_frame els ++ post |})
    | Some vs => (Ret (Some vs), {| buffer := post |})
    end.
Proof.
  unfold array_frame; rewrite <- app_assoc.
  destruct (header_at (length els) (array_body els ++ post)) as (S1 & F & S2).
  pose proof (items_at els (array_header (length els)) post []) as I.
  pose proof (len_array_header (length els)) as LH.
  remember (array_header (length els) ++ array_body els ++ post) as buf eqn:Eb.
  pose proof (len_nonneg (dec (Z.of_nat (length els)))).
  unfold get_command; cbn [buffer].
  destruct buf as [|b0 buf'] eqn:Ebuf; [discriminate Eb|].
  rewrite <- Ebuf in *; clear Ebuf b0 buf'.
  rewrite S1; change (bytes_eqb [x2a] [x2a]) with true; cbv iota.
  unfold _parse_array; cbn [buffer]; cbv zeta.
  rewrite F, S2, int_of_bytes_dec, Nat2Z.id.
  replace (1 + len (dec (Z.of_nat (length els))) =? -1) with false
    by (symmetry; apply Z.eqb_neq; lia).
  replace (1 + len (dec (Z.of_nat (length els))) + 2)
    with (len (array_header (length els))) by lia.
  rewrite I.
  destruct (decode_all (map fst els)) as [vs|]; [|reflexivity].
  cbn [app]; do 2 f_equal.
  rewrite Eb, app_assoc.
  apply slice_from_app; now rewrite len_app.
Qed.

(** *** Incomplete input *)

(** An element whose length line has not fully arrived. *)
Lemma bulk_line_incomplete (pre b rest : bytes) (n : Z) :
  b ++ rest = dec n ++ [CR] ->
  _parse_bulk_string_at (pre ++ x24 :: b) (len pre) = Ret None.
Proof.
  intros E.
  pose proof (len_nonneg pre); pose proof (len_nonneg b).
  unfold _parse_bulk_string_at; cbv zeta.
  rewrite geb_false by (rewrite len_app, len_cons; lia).
  replace (slice (pre ++ x24 :: b) (len pre) (len pre + 1)) with [x24]
    by (symmetry; apply (slice_mid pre [x24] b); reflexivity).
  change (bytes_eqb [x24] [x24]) with true; cbn [negb orb].
  rewrite find_from by reflexivity.
  rewrite (find_at_miss (x24 :: dec n) (x24 :: b) rest);
    [reflexivity | constructor; [discriminate | apply dec_no_cr] |].
  cbn [app]; now rewrite E.
Qed.

(** An element whose length line is complete but whose payload and the
    two bytes after it are not. *)
Lemma bulk_payload_incomplete (pre p rest : bytes) :
  len rest < len p + 2 ->
  _parse_bulk_string_at (pre ++ x24 :: dec (len p) ++ CR :: LF :: rest) (len pre)
  = Ret None.
Proof.
  intros Hlt; set (D := dec (len p)).
  remember (pre ++ x24 :: D ++ CR :: LF :: rest) as buf eqn:Eb.
  pose proof (len_nonneg pre); pose proof (len_nonneg D);
    pose proof (len_nonneg rest).
  assert (L : len buf = len pre + 1 + len D + 2 + len rest).
  { subst buf; rewrite len_app, len_cons, len_app, !len_cons; lia. }
  assert (S1 : slice buf (len pre) (len pre + 1) = [x24]).
  { subst buf; now apply (slice_mid pre [x24] (D ++ CR :: LF :: rest)). }
  assert (F : find CRLF buf (len pre) = len pre + 1 + len D).
  { subst buf.
    change (x24 :: D ++ CR :: LF :: rest) with ((x24 :: D) ++ CR :: LF :: rest).
    rewrite find_from by reflexivity.
    rewrite find_at_hit, len_cons;
      [lia | constructor; [discriminate | apply dec_no_cr]]. }
  assert (S2 : slice buf (len pre + 1) (len pre + 1 + len D) = D).
  { subst buf.
    replace (pre ++ x24 :: D ++ CR :: LF :: rest)
      with ((pre ++ [x24]) ++ D ++ (CR :: LF :: rest)) by list_eq.
    apply slice_mid; rewrite len_app, len_cons, len_nil; lia. }
  clear Eb.
  unfold _parse_bulk_string_at; cbv zeta.
  rewrite F, S1, S2, geb_false by lia.
  replace (int_of_bytes D) with (Some (len p))
    by (symmetry; apply int_of_bytes_dec).
  change (bytes_eqb [x24] [x24]) with true; cbn [negb orb].
  replace (len pre + 1 + len D =? -1) with false
    by (symmetry; apply Z.eqb_neq; lia).
  replace (len buf <? len pre + 1 + len D + 2 + len p + 2) with true
    by (symmetry; apply Z.ltb_lt; lia).
  reflexivity.
Qed.

(** Any proper prefix of an element yields no value. *)
Lemma bulk_prefix (pre b c : bytes) (el : element) :
  b ++ c = bulk_frame el -> c <> [] ->
  _parse_bulk_string_at (pre ++ b) (len pre) = Ret None.
Proof.
  destruct el as [p [t1 t2]]; intros E Hc.
  replace (bulk_frame (p, (t1, t2)))
    with ((x24 :: dec (len p) ++ [CR]) ++ (LF :: p ++ [t1; t2])) in E
    by list_eq.
  apply app_eq_app in E as [l [[Eb El] | [Eb El]]].
  - (* [b] reaches past the [\r] of the length line *)
    destruct l as [|x l].
    + subst b; rewrite app_nil_r; cbn [app].
      now apply (bulk_line_incomplete pre _ [] (len p)); rewrite app_nil_r.
    + cbn [app] in El; injection El as <- El.
      subst b.
      replace (pre ++ (x24 :: dec (len p) ++ [CR]) ++ LF :: l)
        with (pre ++ x24 :: dec (len p) ++ CR :: LF :: l) by list_eq.
      apply bulk_payload_incomplete.
      assert (Hl : len (p ++ [t1; t2]) = len l + len c)
        by (rewrite El; apply len_app).
      rewrite len_app, !len_cons, len_nil in Hl.
      assert (0 < len c)
        by (destruct c; [congruence | rewrite len_cons;
                                       pose proof (len_nonneg c); lia]).
      lia.
  - (* [b] ends inside the length line *)
    destruct b as [|x b].
    + rewrite app_nil_r.
      unfold _parse_bulk_string_at.
      replace (len pre >=? len pre) with true
        by (symmetry; rewrite Z.geb_leb; apply Z.leb_refl).
      reflexivity.
    + cbn [app] in Eb; injection Eb as <- Eb.
      now apply (bulk_line_incomplete pre b l (len p)).
Qed.

Lemma decode_all_cons_some (el : element) (els : list element) :
  decode_all (map fst (el :: els)) <> None ->
  (exists v, decode (fst el) = Some v) /\ decode_all (map fst els) <> None.
Proof.
  cbn [map decode_all]; intros H.
  destruct (decode (fst el)) as [v|]; [|congruence].
  split; [now exists v|].
  destruct (decode_all (map fst els)); [discriminate | exact H].
Qed.

(** The element loop on a proper prefix of the body. *)
Lemma items_prefix (els : list element) :
  forall (pre b c : bytes) (acc : list str),
  decode_all (map fst els) <> None ->
  b ++ c = array_body els -> c <> [] ->
  parse_items (pre ++ b) (length els) (len pre) acc = Ret None.
Proof.
  induction els as [|el els IH]; intros pre b c acc Hd E Hc.
  - cbn in E; apply app_eq_nil in E as [_ ->]; congruence.
  - rewrite array_body_cons in E.
    apply decode_all_cons_some in Hd as [[v Ev] Hd].
    cbn [length parse_items].
    apply app_eq_app in E as [l [[Eb El] | [Eb El]]].
    + subst b; rewrite bulk_at, Ev, app_assoc, <- len_app.
      now apply IH with (c := c).
    + destruct l as [|x l].
      * rewrite app_nil_r in Eb; cbn [app] in El; subst b c.
        pose proof (bulk_at pre el []) as B.
        pose proof (IH (pre ++ bulk_frame el) [] (array_body els) (acc ++ [v])
                      Hd eq_refl Hc) as I.
        rewrite app_nil_r in B, I.
        now rewrite B, Ev, <- len_app.
      * rewrite (bulk_prefix pre b (x :: l) el);
          [reflexivity | now symmetry | discriminate].
Qed.

(** A buffer whose array header has not fully arrived. *)
Lemma header_incomplete (b rest : bytes) (n : Z) :
  b ++ rest = dec n ++ [CR] ->
  get_command {| buffer := x2a :: b |} = (Ret None, {| buffer := x2a :: b |}).
Proof.
  intros E; unfold get_command; cbn [buffer].
  replace (slice (x2a :: b) 0 1) with [x2a]
    by (symmetry; apply (slice_mid [] [x2a] b); reflexivity).
  change (bytes_eqb [x2a] [x2a]) with true; cbv iota.
  unfold _parse_array; cbn [buffer]; cbv zeta.
  pose proof (find_from [] (x2a :: b) 0 eq_refl) as Ff.
  cbn [app] in Ff; rewrite Ff.
  rewrite (find_at_miss (x2a :: dec n) (x2a :: b) rest);
    [reflexivity | constructor; [discriminate | apply dec_no_cr] |].
  cbn [app]; now rewrite E.
Qed.

(** While a frame is incomplete, [get_command] answers [None] and leaves
    the buffer as it is. *)
Lemma array_prefix (els : list element) (b c : bytes) :
  decode_all (map fst els) <> None ->
  b ++ c = array_frame els -> c <> [] ->
  get_command {| buffer := b |} = (Ret None, {| buffer := b |}).
Proof.
  intros Hd E Hc.
  replace (array_frame els)
    with ((x2a :: dec (Z.of_nat (length els)) ++ [CR])
          ++ (LF :: array_body els)) in E by list_eq.
  apply app_eq_app in E as [l [[Eb El] | [Eb El]]].
  - destruct l as [|x l].
    + subst b; rewrite app_nil_r; cbn [app].
      now apply (header_incomplete _ [] (Z.of_nat (length els)));
        rewrite app_nil_r.
    + cbn [app] in El; injection El as <- El.
      replace b with (array_header (length els) ++ l) by (subst b; list_eq).
      destruct (header_at (length els) l) as (S1 & F & S2).
      pose proof (items_prefix els (array_header (length els)) l c []
                    Hd (eq_sym El) Hc) as I.
      pose proof (len_array_header (length els)) as LH.
      pose proof (len_nonneg (dec (Z.of_nat (length els)))).
      remember (array_header (length els) ++ l) as buf eqn:Ebuf.
      unfold get_command; cbn [buffer].
      destruct buf as [|b0 buf'] eqn:Ebuf'; [discriminate Ebuf|].
      rewrite <- Ebuf' in *; clear Ebuf' b0 buf'.
      rewrite S1; change (bytes_eqb [x2a] [x2a]) with true; cbv iota.
      unfold _parse_array; cbn [buffer]; cbv zeta.
      rewrite F, S2, int_of_bytes_dec, Nat2Z.id.
      replace (1 + len (dec (Z.of_nat (length els))) =? -1) with false
        by (symmetry; apply Z.eqb_neq; lia).
      replace (1 + len (dec (Z.of_nat (length els))) + 2)
        with (len (array_header (length els))) by lia.
      now rewrite I.
  - destruct b as [|x b]; [reflexivity|].
    cbn [app] in Eb; injection Eb as <- Eb.
    now apply (header_incomplete b l (Z.of_nat (length els))).
Qed.

(* ================================================================== *)
(** ** Chunked delivery *)

Lemma drain_init (fuel : nat) : drain (S fuel) init = Some ([], None, init).
Proof. reflexivity. Qed.

(** Empty chunks on an empty buffer produce nothing. *)
Lemma feed_all_silent (fuel : nat) (chunks : list bytes) :
  concat chunks = [] -> feed_all (S fuel) init chunks = Some ([], None, init).
Proof.
  induction chunks as [|chunk more IH]; intros E; [reflexivity|].
  cbn [concat] in E; apply app_eq_nil in E as [-> E].
  cbn [feed_all]; change (feed init []) with init.
  now rewrite drain_init, IH.
Qed.

Lemma drain_waiting (fuel : nat) (p : RESPParser) :
  get_command p = (Ret None, p) -> drain (S fuel) p = Some ([], None, p).
Proof. intros H; cbn [drain]; now rewrite H. Qed.

Lemma drain_frame (fuel : nat) (els : list element) (args : list str) :
  decode_all (map fst els) = Some args ->
  drain (S (S fuel)) {| buffer := array_frame els |} = Some ([args], None, init).
Proof.
  intros Hd.
  pose proof (array_at els []) as G; rewrite app_nil_r, Hd in G.
  cbn [drain]; rewrite G.
  change (get_command {| buffer := [] |}) with (@Ret (option (list str)) None, init).
  reflexivity.
Qed.

(** Whatever the cut points, the frame comes out once, when its last
    byte has arrived. *)
Lemma feed_all_frame (els : list element) (args : list str) (fuel : nat) :
  decode_all (map fst els) = Some args ->
  forall (chunks : list bytes) (b : bytes),
  b ++ concat chunks = array_frame els -> concat chunks <> [] ->
  feed_all (S (S fuel)) {| buffer := b |} chunks = Some ([args], None, init).
Proof.
  intros Hd; induction chunks as [|chunk more IH]; intros b E Hne;
    [now contradiction Hne|].
  cbn [concat] in E, Hne; rewrite app_assoc in E.
  cbn [feed_all]; unfold feed; cbn [buffer].
  destruct (concat more) as [|x r] eqn:Em.
  - rewrite app_nil_r in E; rewrite E, (drain_frame fuel els args Hd).
    now rewrite feed_all_silent.
  - rewrite drain_waiting.
    + rewrite (IH (b ++ chunk));
        [reflexivity | exact E | discriminate].
    + apply (array_prefix els (b ++ chunk) (x :: r));
        [now rewrite Hd | exact E | discriminate].
Qed.

Lemma map_fst_terminated (ps : list bytes) : map fst (map terminated ps) = ps.
Proof. induction ps; cbn; congruence. Qed.

Lemma array_frame_nonempty (els : list element) : array_frame els <> [].
Proof. discriminate. Qed.

(** C1 (as stated, refuted).  The first element of
    [*2\r\n$1\r\n<ff>\r\n] is complete and its payload, the byte ff, is
    not UTF-8; the second element has not arrived.  [get_command] does
    not answer [None]: line 75 raises [UnicodeDecodeError], which ends
    the connection.  The frame delivered whole, or cut anywhere after
    the first element, never yields a command either. *)
Lemma undecodable_payload_raises :
  get_command
    {| buffer := [x2a; x32; CR; LF; x24; x31; CR; LF; xff; CR; LF] |}
  = (Raise UnicodeDecodeError,
     {| buffer := [x2a; x32; CR; LF; x24; x31; CR; LF; xff; CR; LF] |})
  /\ feed_all 2 init
       [[x2a; x32; CR; LF; x24; x31; CR; LF; xff; CR; LF];
        [x24; x31; CR; LF; x6b; CR; LF]]
     = Some ([], Some UnicodeDecodeError,
             {| buffer := [x2a; x32; CR; LF; x24; x31; CR; LF; xff; CR; LF] |})
  /\ feed_all 2 init
       [array_frame (map terminated [[xff]; [x6b]])]
     = Some ([], Some UnicodeDecodeError,
             {| buffer := array_frame (map terminated [[xff]; [x6b]]) |}).
Proof. repeat split; vm_compute; reflexivity. Qed.

(** C1 (amended).  For a well-formed array-form command whose payloads
    are UTF-8 (payloads [ps] that decode to [args], each followed by
    [\r\n]) and every way of cutting its bytes into chunks, feeding the
    chunks and draining after each one yields the single command [args]
    and an empty buffer, exactly as one contiguous write does; while the
    frame is incomplete [get_command] answers [None] and keeps the
    buffer, and on the complete frame it consumes the frame's bytes and
    nothing after them. *)
Theorem chunked_delivery
  (ps : list bytes) (args : list str) (chunks : list bytes) (fuel : nat) :
  decode_all ps = Some args ->
  concat chunks = array_frame (map terminated ps) ->
  (2 <= fuel)%nat ->
  feed_all fuel init chunks = Some ([args], None, init)
  /\ feed_all fuel init [array_frame (map terminated ps)]
     = Some ([args], None, init)
  /\ (forall b c : bytes,
        b ++ c = array_frame (map terminated ps) -> c <> [] ->
        get_command {| buffer := b |} = (Ret None, {| buffer := b |}))
  /\ (forall rest : bytes,
        get_command {| buffer := array_frame (map terminated ps) ++ rest |}
        = (Ret (Some args), {| buffer := rest |})).
Proof.
  intros Hd E Hf.
  set (els := map terminated ps) in *.
  assert (Hd' : decode_all (map fst els) = Some args)
    by (unfold els; now rewrite map_fst_terminated).
  destruct fuel as [|[|fuel]]; [lia | lia |].
  pose proof (array_frame_nonempty els) as Hne.
  repeat split.
  - apply (feed_all_frame els args fuel Hd' chunks []); [exact E | congruence].
  - apply (feed_all_frame els args fuel Hd' [array_frame els] []);
      cbn [concat app]; now rewrite app_nil_r.
  - intros b c Ebc Hc; apply (array_prefix els b c); [congruence | easy | easy].
  - intros rest; now rewrite array_at, Hd'.
Qed.

(** C1 (amended), on [*2\r\n$3\r\nGET\r\n$1\r\nk\r\n] cut inside the
    header, inside a length line and inside a payload. *)
Lemma chunked_delivery_witness :
  feed_all 2 init
    [ [x2a]; [x32; CR; LF; x24]; [x33; CR; LF; x47; x45];
      [x54; CR; LF; x24; x31; CR; LF; x6b; CR]; [LF] ]
  = Some ([[lit "GET"; lit "k"]], None, init).
Proof.
  exact (proj1 (chunked_delivery
                  [[x47; x45; x54]; [x6b]] [lit "GET"; lit "k"]
                  [ [x2a]; [x32; CR; LF; x24]; [x33; CR; LF; x47; x45];
                    [x54; CR; LF; x24; x31; CR; LF; x6b; CR]; [LF] ]
                  2 eq_refl eq_refl (le_n 2))).
Defined.

(* ================================================================== *)
(** ** The two bytes after a payload *)

(** C10. An element is read as its declared number of payload bytes, and
    the position moves two bytes further whatever those two bytes are;
    hence a frame whose payloads are followed by arbitrary byte pairs
    gives the same outcome as the frame with the same payloads followed
    by [\r\n], and the same bytes are left in the buffer after the
    command. *)
Theorem terminator_not_checked (els : list element) (rest : bytes) :
  (forall (pre : bytes) (el : element) (post : bytes),
     _parse_bulk_string_at (pre ++ bulk_frame el ++ post) (len pre)
     = match decode (fst el) with
       | None => Raise UnicodeDecodeError
       | Some v =>
           Ret (Some (v, len pre + 1 + len (dec (len (fst el))) + 2
                         + len (fst el) + 2))
       end)
  /\ fst (get_command {| buffer := array_frame els ++ rest |})
     = fst (get_command
              {| buffer := array_frame (map terminated (map fst els)) ++ rest |})
  /\ get_command {| buffer := array_frame els ++ rest |}
     = match decode_all (map fst els) with
       | None =>
           (Raise UnicodeDecodeError, {| buffer := array_frame els ++ rest |})
       | Some args => (Ret (Some args), {| buffer := rest |})
       end.
Proof.
  repeat split.
  - intros pre el post; rewrite bulk_at, len_bulk_frame.
    destruct (decode (fst el)); [|reflexivity].
    now rewrite !Z.add_assoc.
  - rewrite !array_at, map_fst_terminated.
    now destruct (decode_all (map fst els)).
  - apply array_at.
Qed.

(* ================================================================== *)
(** ** Malformed prefixes *)

(** A count that [int()] rejects: the leading byte is dropped and no
    command is returned. *)
Lemma bad_count_drops_byte (d rest : bytes) :
  no_cr d -> int_of_bytes d = None ->
  get_command {| buffer := x2a :: d ++ CRLF ++ rest |}
  = (Ret None, {| buffer := d ++ CRLF ++ rest |}).
Proof.
  intros Hd Hi; pose proof (len_nonneg d).
  unfold get_command; cbn [buffer].
  replace (slice (x2a :: d ++ CRLF ++ rest) 0 1) with [x2a]
    by (symmetry; apply (slice_mid [] [x2a] (d ++ CRLF ++ rest)); reflexivity).
  change (bytes_eqb [x2a] [x2a]) with true; cbv iota.
  unfold _parse_array; cbn [buffer]; cbv zeta.
  pose proof (find_from [] (x2a :: d ++ CRLF ++ rest) 0 eq_refl) as Ff.
  cbn [app] in Ff; rewrite Ff.
  change (x2a :: d ++ CRLF ++ rest) with ((x2a :: d) ++ CR :: LF :: rest).
  rewrite find_at_hit by (constructor; [discriminate | assumption]).
  rewrite len_nil, len_cons.
  replace (0 + (1 + len d) =? -1) with false
    by (symmetry; apply Z.eqb_neq; lia).
  replace (slice ((x2a :: d) ++ CR :: LF :: rest) 1 (0 + (1 + len d))) with d
    by (symmetry; apply (slice_mid [x2a] d (CR :: LF :: rest));
        [reflexivity | change (len [x2a]) with 1; lia]).
  rewrite Hi; do 2 f_equal.
  now apply (slice_from_app [x2a]).
Qed.

(** A length that [int()] rejects: the element yields no value. *)
Lemma bad_length_yields_none (pre d post : bytes) :
  no_cr d -> int_of_bytes d = None ->
  _parse_bulk_string_at (pre ++ x24 :: d ++ CR :: LF :: post) (len pre)
  = Ret None.
Proof.
  intros Hd Hi.
  pose proof (len_nonneg pre); pose proof (len_nonneg d);
    pose proof (len_nonneg (d ++ CR :: LF :: post)).
  unfold _parse_bulk_string_at; cbv zeta.
  rewrite geb_false by (rewrite len_app, len_cons; lia).
  replace (slice (pre ++ x24 :: d ++ CR :: LF :: post) (len pre) (len pre + 1))
    with [x24]
    by (symmetry; apply (slice_mid pre [x24] (d ++ CR :: LF :: post));
        reflexivity).
  change (bytes_eqb [x24] [x24]) with true; cbn [negb orb].
  rewrite find_from by reflexivity.
  change (x24 :: d ++ CR :: LF :: post) with ((x24 :: d) ++ CR :: LF :: post).
  rewrite find_at_hit by (constructor; [discriminate | assumption]).
  rewrite len_cons.
  replace (len pre + (1 + len d) =? -1) with false
    by (symmetry; apply Z.eqb_neq; lia).
  replace (slice (pre ++ (x24 :: d) ++ CR :: LF :: post) (len pre + 1)
             (len pre + (1 + len d))) with d; [now rewrite Hi|].
  symmetry.
  replace (pre ++ (x24 :: d) ++ CR :: LF :: post)
    with ((pre ++ [x24]) ++ d ++ (CR :: LF :: post)) by list_eq.
  apply slice_mid; rewrite len_app, len_cons, len_nil; lia.
Qed.

Lemma bad_length_frame_waits (more : bytes) :
  get_command {| buffer := bad_length_frame ++ more |}
  = (Ret None, {| buffer := bad_length_frame ++ more |}).
Proof.
  unfold bad_length_frame; rewrite <- app_assoc.
  destruct (header_at 1 ([x24; x78; CR; LF] ++ more)) as (S1 & F & S2).
  pose proof (bad_length_yields_none (array_header 1) [x78] more) as B.
  remember (array_header 1 ++ [x24; x78; CR; LF] ++ more) as buf eqn:Eb.
  unfold get_command; cbn [buffer].
  destruct buf as [|b0 buf'] eqn:Ebuf; [discriminate Eb|].
  rewrite <- Ebuf in *; clear Ebuf b0 buf'.
  rewrite S1; change (bytes_eqb [x2a] [x2a]) with true; cbv iota.
  unfold _parse_array; cbn [buffer]; cbv zeta.
  rewrite F, S2, int_of_bytes_dec.
  change (1 + len (dec (Z.of_nat 1)) =? -1) with false; cbv iota.
  change (Z.to_nat (Z.of_nat 1)) with 1%nat.
  change (1 + len (dec (Z.of_nat 1)) + 2) with (len (array_header 1)).
  cbn [parse_items].
  rewrite Eb; cbn [app] in B |- *; rewrite B; [reflexivity | | reflexivity].
  constructor; [discriminate | constructor].
Qed.

(** C4 (the code departs from the claim).  After [*1\r\n$x\r\n] the
    connection never produces a command again: whatever chunks arrive,
    every drain ends without a command and the buffer only grows, the
    malformed length still at its front. *)
Theorem malformed_bulk_length_stalls (fuel : nat) (chunks : list bytes) :
  feed_all (S fuel) {| buffer := bad_length_frame |} chunks
  = Some ([], None, {| buffer := bad_length_frame ++ concat chunks |}).
Proof.
  assert (G : forall (acc : bytes),
             feed_all (S fuel) {| buffer := bad_length_frame ++ acc |} chunks
             = Some ([], None,
                     {| buffer := bad_length_frame ++ acc ++ concat chunks |})).
  { induction chunks as [|chunk more IH]; intros acc.
    - cbn [feed_all concat]; now rewrite app_nil_r.
    - cbn [feed_all concat]; unfold feed; cbn [buffer].
      rewrite <- app_assoc, drain_waiting by apply bad_length_frame_waits.
      now rewrite IH, <- app_assoc. }
  specialize (G []); now rewrite app_nil_r in G.
Qed.

(* ================================================================== *)
(** ** Replies read back by the parser *)

Lemma byte_of_to_N (b : byte) : byte_of (Byte.to_N b) = b.
Proof. unfold byte_of; now rewrite Byte.of_to_N. Qed.

Lemma to_N_byte_of (c : N) : (c < 256)%N -> Byte.to_N (byte_of c) = c.
Proof.
  intros H; unfold byte_of.
  destruct (Byte.of_N c) as [b|] eqn:E; [now apply Byte.to_of_N|].
  apply Byte.of_N_None_iff in E; lia.
Qed.

Lemma encode_app (a b : str) :
  encode (a ++ b)
  = match encode a, encode b with
    | Some x, Some y => Some (x ++ y)
    | _, _ => None
    end.
Proof.
  induction a as [|c a IH]; cbn [app encode].
  - now destruct (encode b).
  - rewrite IH.
    destruct (encode_cp c), (encode a), (encode b); try reflexivity.
    now rewrite app_assoc.
Qed.

Lemma encode_ascii (s : str) : is_ascii s -> encode s = Some (map byte_of s).
Proof.
  induction 1 as [|c s Hc Hs IH]; [reflexivity|].
  cbn [encode map]; rewrite IH.
  unfold encode_cp; now rewrite (proj2 (N.ltb_lt c 128) Hc).
Qed.

Lemma decode_ascii (s : str) : is_ascii s -> decode (map byte_of s) = Some s.
Proof.
  induction 1 as [|c s Hc Hs IH]; [reflexivity|].
  cbn [map decode]; rewrite IH.
  rewrite to_N_byte_of by lia.
  now rewrite (proj2 (N.ltb_lt c 128) Hc).
Qed.

Lemma is_ascii_app (a b : str) : is_ascii a -> is_ascii b -> is_ascii (a ++ b).
Proof. intros; now apply Forall_app. Qed.

Lemma digits_ascii (u : Decimal.uint) :
  Forall (fun b => (Byte.to_N b < 128)%N) (digits u).
Proof. induction u; cbn [digits]; constructor; auto; reflexivity. Qed.

Lemma is_ascii_dec_str (n : Z) : is_ascii (dec_str n).
Proof.
  unfold is_ascii, dec_str, dec; rewrite Forall_map.
  destruct (Z.to_int n); [|constructor; [reflexivity|]]; apply digits_ascii.
Qed.

Lemma map_byte_of_dec_str (n : Z) : map byte_of (dec_str n) = dec n.
Proof.
  unfold dec_str; rewrite map_map.
  rewrite (map_ext _ (fun b => b)) by apply byte_of_to_N.
  apply map_id.
Qed.

(** The bytes of one element of a key listing. *)
Lemma bulk_text_bytes (k : str) :
  map byte_of (bulk_text k) = bulk_frame (terminated (map byte_of k)).
Proof.
  unfold bulk_text; rewrite !map_app, map_byte_of_dec_str.
  unfold bulk_frame, terminated; cbn [fst snd].
  unfold len; now rewrite length_map.
Qed.

Lemma is_ascii_bulk_text (k : str) : is_ascii k -> is_ascii (bulk_text k).
Proof.
  intros Hk; unfold bulk_text; repeat apply is_ascii_app; try assumption;
    try apply is_ascii_dec_str; repeat constructor.
Qed.

Lemma keys_body_bytes (keys : list str) :
  map byte_of (concat (map bulk_text keys))
  = array_body (map (fun k => terminated (map byte_of k)) keys).
Proof.
  induction keys as [|k keys IH]; [reflexivity|].
  cbn [map concat]; rewrite map_app, IH, array_body_cons.
  now rewrite <- bulk_text_bytes.
Qed.

Lemma is_ascii_keys_body (keys : list str) :
  Forall is_ascii keys -> is_ascii (concat (map bulk_text keys)).
Proof.
  induction 1 as [|k keys Hk Hs IH]; [constructor|].
  cbn [map concat]; apply is_ascii_app; [now apply is_ascii_bulk_text | exact IH].
Qed.

(** The [KEYS] reply for ASCII keys is the frame of their bytes. *)
Lemma keys_text_bytes (keys : list str) :
  Forall is_ascii keys ->
  encoded (keys_text keys)
  = Ret (array_frame (map (fun k => terminated (map byte_of k)) keys)).
Proof.
  intros Hk; unfold encoded.
  unfold keys_text.
  rewrite encode_ascii.
  - rewrite !map_app, map_byte_of_dec_str, keys_body_bytes.
    unfold array_frame, array_header; rewrite length_map.
    f_equal; list_eq.
  - repeat apply is_ascii_app; try apply is_ascii_dec_str;
      try (now apply is_ascii_keys_body); repeat constructor.
Qed.

Lemma decode_all_ascii (keys : list str) :
  Forall is_ascii keys ->
  decode_all (map fst (map (fun k => terminated (map byte_of k)) keys))
  = Some keys.
Proof.
  induction 1 as [|k keys Hk Hs IH]; [reflexivity|].
  cbn [map fst terminated decode_all] in *.
  now rewrite decode_ascii, IH.
Qed.

(** C8 (as stated, refuted).  The bulk reply for ["bar"] handed to
    [get_command] is read as the inline command [["$3"]], not as the
    value; and the key listing for the two-character key U+00E9 U+0061
    (e-acute, a), whose declared length 2 counts code points while its
    payload has three bytes, is read back as the one-character key
    U+00E9. *)
Lemma reply_not_read_back :
  (bulk_string (Some (lit "bar"))
   = Ret [x24; x33; CR; LF; x62; x61; x72; CR; LF]
   /\ get_command {| buffer := [x24; x33; CR; LF; x62; x61; x72; CR; LF] |}
      = (Ret (Some [lit "$3"]), {| buffer := [x62; x61; x72; CR; LF] |}))
  /\ (encoded (keys_text [[233%N; 97%N]])
      = Ret [x2a; x31; CR; LF; x24; x32; CR; LF; xc3; xa9; x61; CR; LF]
      /\ get_command
           {| buffer :=
                [x2a; x31; CR; LF; x24; x32; CR; LF; xc3; xa9; x61; CR; LF] |}
         = (Ret (Some [[233%N]]), {| buffer := [LF] |})).
Proof. repeat split; vm_compute; reflexivity. Qed.

(** C8 (amended).  For keys made of ASCII code points, the encoded key
    listing is read back by [get_command] as exactly those keys, with
    nothing left in the buffer; for an ASCII value, the encoded bulk
    reply is read back by the element parser [_parse_bulk_string_at] at
    offset 0 as exactly that value, the whole reply consumed. *)
Theorem ascii_reply_read_back (keys : list str) (v : str) :
  Forall is_ascii keys -> is_ascii v ->
  (exists b : bytes,
     encoded (keys_text keys) = Ret b
     /\ get_command {| buffer := b |} = (Ret (Some keys), init))
  /\ (exists b : bytes,
        bulk_string (Some v) = Ret b
        /\ _parse_bulk_string_at b 0 = Ret (Some (v, len b))).
Proof.
  intros Hk Hv; split.
  - eexists; split; [now apply keys_text_bytes|].
    pose proof (array_at (map (fun k => terminated (map byte_of k)) keys) [])
      as G.
    now rewrite app_nil_r, decode_all_ascii in G.
  - exists (bulk_frame (terminated (map byte_of v))); split.
    + cbn [bulk_string]; unfold encoded.
      rewrite encode_ascii by now apply is_ascii_bulk_text.
      now rewrite bulk_text_bytes.
    + pose proof (bulk_at [] (terminated (map byte_of v)) []) as B.
      cbn [app fst terminated] in B; rewrite app_nil_r in B.
      now rewrite decode_ascii in B.
Qed.

(** C8 (amended), on the keys ["a"], ["bc"] and the value ["bar"]. *)
Lemma ascii_reply_read_back_witness :
  (exists b : bytes,
     encoded (keys_text [lit "a"; lit "bc"]) = Ret b
     /\ get_command {| buffer := b |} = (Ret (Some [lit "a"; lit "bc"]), init))
  /\ (exists b : bytes,
        bulk_string (Some (lit "bar")) = Ret b
        /\ _parse_bulk_string_at b 0 = Ret (Some (lit "bar", len b))).
Proof.
  apply (ascii_reply_read_back [lit "a"; lit "bc"] (lit "bar"));
    repeat (constructor || reflexivity).
Defined.

(* ================================================================== *)
(** ** The store *)

Lemma str_eqb_eq (a b : str) : str_eqb a b = true <-> a = b.
Proof.
  revert b; induction a as [|x a IH]; intros [|y b]; cbn;
    try (split; [discriminate | congruence]); [tauto|].
  rewrite andb_true_iff, N.eqb_eq, IH.
  split; [intros [-> ->]; reflexivity | intros E; injection E; auto].
Qed.

Lemma str_eqb_refl (a : str) : str_eqb a a = true.
Proof. now apply str_eqb_eq. Qed.

Lemma str_eqb_neq (a b : str) : a <> b -> str_eqb a b = false.
Proof.
  intros H; destruct (str_eqb a b) eqn:E; [|reflexivity].
  apply str_eqb_eq in E; contradiction.
Qed.

Section Dict.
Context {V : Type}.
Implicit Types (d : list (str * V)) (k : str) (v : V).

Lemma lookup_assign_same k v d : lookup k (assign k v d) = Some v.
Proof.
  induction d as [|[k' v'] d IH]; cbn; [now rewrite str_eqb_refl|].
  destruct (str_eqb k k') eqn:E; cbn; [now rewrite str_eqb_refl|].
  now rewrite E.
Qed.

Lemma lookup_assign_other k k' v d :
  k' <> k -> lookup k' (assign k v d) = lookup k' d.
Proof.
  intros H; induction d as [|[k0 v0] d IH]; cbn.
  - now rewrite str_eqb_neq.
  - destruct (str_eqb k k0) eqn:E; cbn.
    + apply str_eqb_eq in E; subst k0; now rewrite str_eqb_neq.
    + now rewrite IH.
Qed.

Lemma lookup_remove_same k d : lookup k (remove k d) = None.
Proof.
  induction d as [|[k' v'] d IH]; cbn; [reflexivity|].
  destruct (str_eqb k k') eqn:E; cbn; [exact IH | now rewrite E].
Qed.

Lemma lookup_remove_other k k' d :
  k' <> k -> lookup k' (remove k d) = lookup k' d.
Proof.
  intros H; induction d as [|[k0 v0] d IH]; cbn; [reflexivity|].
  destruct (str_eqb k k0) eqn:E; cbn.
  - apply str_eqb_eq in E; subst k0; now rewrite str_eqb_neq.
  - now rewrite IH.
Qed.

Lemma remove_absent k d : lookup k d = None -> remove k d = d.
Proof.
  induction d as [|[k' v'] d IH]; cbn; [reflexivity|].
  destruct (str_eqb k k'); [discriminate | intros H; now rewrite IH].
Qed.

End Dict.

(** *** The clock *)

Lemma timed_out_past (now t : Q) :
  ~ (t == 0)%Q -> (t < now)%Q -> timed_out now (Some t) = true.
Proof.
  intros Hz Hlt; unfold timed_out, Qgt_bool.
  destruct (Qeq_bool t 0) eqn:E; [apply Qeq_bool_eq in E; contradiction|].
  destruct (Qle_bool now t) eqn:L; [|reflexivity].
  apply Qle_bool_iff in L; exfalso; now apply (Qlt_not_le t now).
Qed.

Lemma timed_out_not_yet (now t : Q) :
  (now <= t)%Q -> timed_out now (Some t) = false.
Proof.
  intros H; unfold timed_out, Qgt_bool.
  rewrite (proj2 (Qle_bool_iff now t) H); apply andb_false_r.
Qed.

Lemma Qtrunc_nonneg (x : Q) : (0 <= x)%Q -> Qtrunc x = Qfloor x.
Proof.
  destruct x as [n d]; unfold Qle, Qtrunc, Qfloor; cbn; intros H.
  apply Z.quot_div_nonneg; lia.
Qed.

Lemma Qtrunc_whole_second_past (x : Q) : (x <= -1)%Q -> Qtrunc x < 0.
Proof.
  destruct x as [n d]; unfold Qle, Qtrunc; cbn; intros H.
  replace n with (- (- n)) by lia.
  rewrite Z.quot_opp_l by lia.
  assert (0 < (- n) / Z.pos d) by (apply Z.div_str_pos; lia).
  rewrite Z.quot_div_nonneg by lia; lia.
Qed.

(** *** Reply texts *)

Lemma integer_bytes (val : Z) : integer val = Ret (x3a :: dec val ++ CRLF).
Proof.
  unfold integer, encoded; rewrite encode_ascii.
  - now rewrite !map_app, map_byte_of_dec_str.
  - repeat apply is_ascii_app; try apply is_ascii_dec_str; repeat constructor.
Qed.

(** Comparison of the upper-cased command with the names of the source. *)
Ltac names :=
  repeat match goal with
    | |- context [str_eqb (lit ?a) (lit ?b)] =>
        let v := eval vm_compute in (str_eqb (lit a) (lit b)) in
        change (str_eqb (lit a) (lit b)) with v
    end;
  cbv iota.

Ltac dispatch H :=
  match type of H with
  | upper (nth 0 ?args []) = _ =>
      destruct args as [|?a0 ?rest]; [discriminate H|];
      cbn [nth] in H; unfold handle_command; cbv zeta; rewrite H; names
  end.

(* ================================================================== *)
(** ** Rounding to binary64 *)

(** *** Rounding to the nearest integer *)

Lemma nearest_even_scale (n d c : Z) :
  0 < d -> 0 < c -> nearest_even (n * c) (d * c) = nearest_even n d.
Proof.
  intros Hd Hc; unfold nearest_even; cbv zeta.
  rewrite Z.div_mul_cancel_r, Z.mul_mod_distr_r by lia.
  rewrite Z.mul_assoc, <- (Zmult_compare_compat_r _ _ c) by lia.
  reflexivity.
Qed.

Lemma nearest_even_mono_num (n n' d : Z) :
  0 < d -> n <= n' -> nearest_even n d <= nearest_even n' d.
Proof.
  intros Hd Hn; unfold nearest_even; cbv zeta.
  pose proof (Z.div_mod n d ltac:(lia)) as E.
  pose proof (Z.div_mod n' d ltac:(lia)) as E'.
  pose proof (Z.mod_pos_bound n d Hd) as B.
  pose proof (Z.mod_pos_bound n' d Hd) as B'.
  pose proof (Z.div_le_mono n n' d Hd Hn) as K.
  destruct (Z.eq_dec (n / d) (n' / d)) as [Ek | Nk].
  - rewrite <- Ek in *.
    assert (n mod d <= n' mod d) by lia.
    destruct (Z.compare_spec (2 * (n mod d)) d);
      destruct (Z.compare_spec (2 * (n' mod d)) d);
      destruct (Z.even (n / d)); lia.
  - destruct (Z.compare_spec (2 * (n mod d)) d);
      destruct (Z.compare_spec (2 * (n' mod d)) d);
      destruct (Z.even (n / d)); destruct (Z.even (n' / d)); lia.
Qed.

Lemma nearest_even_mono (n d n' d' : Z) :
  0 < d -> 0 < d' -> n * d' <= n' * d ->
  nearest_even n d <= nearest_even n' d'.
Proof.
  intros Hd Hd' H.
  rewrite <- (nearest_even_scale n d d'), <- (nearest_even_scale n' d' d)
    by assumption.
  rewrite (Z.mul_comm d' d).
  apply nearest_even_mono_num; [lia | exact H].
Qed.

Lemma nearest_even_int (k d : Z) : 0 < d -> nearest_even (k * d) d = k.
Proof.
  intros Hd; unfold nearest_even; cbv zeta.
  rewrite Z.div_mul, Z.mod_mul by lia.
  destruct (Z.compare_spec (2 * 0) d); lia.
Qed.

Lemma nearest_even_nonneg (n d : Z) :
  0 <= n -> 0 < d -> 0 <= nearest_even n d.
Proof.
  intros Hn Hd; unfold nearest_even.
  assert (0 <= n / d) by (apply Z.div_pos; lia).
  destruct (2 * (n mod d) ?= d); [destruct (Z.even (n / d))| |]; lia.
Qed.

Section Binary64.
Local Open Scope Q_scope.

(** *** Powers of two *)

Lemma pow2_pos (z : Z) : 0 < 2 ^ z.
Proof. now apply Qpower_0_lt. Qed.

Lemma inject_pow2 (n : Z) : (0 <= n)%Z -> inject_Z (2 ^ n) == 2 ^ n.
Proof. intros H; now rewrite Zpower_Qpower. Qed.

Lemma scaled (a d : positive) (q : Z) :
  inject_Z (Zpos a * 2 ^ Z.max 0 (- q))
  == (Zpos a # d) * 2 ^ (- q) * inject_Z (Zpos d * 2 ^ Z.max 0 q).
Proof.
  rewrite !inject_Z_mult, !inject_pow2 by lia.
  replace (Z.max 0 (- q)) with (- q + Z.max 0 q)%Z by lia.
  rewrite Qpower_plus by discriminate.
  rewrite (Qmake_Qdiv (Zpos a) d).
  field; discriminate.
Qed.

Lemma cmp_pow (a d : positive) (q k : Z) :
  (q <= k)%Z ->
  (Zpos a * 2 ^ Z.max 0 (- q) < Zpos d * 2 ^ Z.max 0 q * 2 ^ (k - q))%Z
  <-> Zpos a # d < 2 ^ k.
Proof.
  intros Hk.
  rewrite Zlt_Qlt, (inject_Z_mult _ (2 ^ (k - q))), inject_pow2 by lia.
  rewrite (scaled a d q).
  assert (Ht : 0 < inject_Z (Zpos d * 2 ^ Z.max 0 q)).
  { change 0 with (inject_Z 0); rewrite <- Zlt_Qlt.
    apply Z.mul_pos_pos; [lia | apply Z.pow_pos_nonneg; lia]. }
  replace (k - q)%Z with (k + - q)%Z by lia.
  rewrite Qpower_plus by discriminate.
  pose proof (pow2_pos (- q)) as Hp.
  set (t := inject_Z (Zpos d * 2 ^ Z.max 0 q)) in *.
  set (p := 2 ^ (- q)) in *; set (P := 2 ^ k); set (x := Zpos a # d).
  assert (Hpt : 0 < p * t) by (apply Qmult_lt_0_compat; assumption).
  setoid_replace (x * p * t) with (x * (p * t)) by ring.
  setoid_replace (t * (P * p)) with (P * (p * t)) by ring.
  split; intros H.
  - now apply Qmult_lt_r in H.
  - now apply Qmult_lt_r.
Qed.

Lemma log2_bounds (a : positive) :
  2 ^ Z.log2 (Zpos a) <= inject_Z (Zpos a)
  /\ inject_Z (Zpos a) < 2 ^ (Z.log2 (Zpos a) + 1).
Proof.
  pose proof (Z.log2_spec (Zpos a) ltac:(lia)) as [L U].
  pose proof (Z.log2_nonneg (Zpos a)).
  rewrite <- !inject_pow2 by lia.
  rewrite <- Zle_Qle, <- Zlt_Qlt; split; [exact L | exact U].
Qed.

(** The exponent is the binary exponent. *)
Lemma exponent_spec (a d : positive) :
  2 ^ exponent a d <= Zpos a # d /\ Zpos a # d < 2 ^ (exponent a d + 1).
Proof.
  unfold exponent; cbv zeta.
  set (e0 := (Z.log2 (Zpos a) - Z.log2 (Zpos d))%Z).
  destruct (log2_bounds a) as [La Ua], (log2_bounds d) as [Ld Ud].
  assert (X : (Zpos a # d) * inject_Z (Zpos d) == inject_Z (Zpos a))
    by (rewrite Qmake_Qdiv; field; discriminate).
  assert (Dpos : 0 < inject_Z (Zpos d)) by reflexivity.
  assert (Hhi : Zpos a # d < 2 ^ (e0 + 1)).
  { assert (E : 2 ^ (Z.log2 (Zpos a) + 1)
                == 2 ^ (e0 + 1) * 2 ^ Z.log2 (Zpos d)).
    { rewrite <- Qpower_plus by discriminate.
      replace (e0 + 1 + Z.log2 (Zpos d))%Z with (Z.log2 (Zpos a) + 1)%Z
        by (unfold e0; lia).
      reflexivity. }
    pose proof (pow2_pos (e0 + 1)).
    pose proof (pow2_pos (Z.log2 (Zpos d))).
    rewrite E in Ua.
    set (x := Zpos a # d) in *; set (P := 2 ^ (e0 + 1)) in *.
    set (L := 2 ^ Z.log2 (Zpos d)) in *.
    set (D := inject_Z (Zpos d)) in *; set (A := inject_Z (Zpos a)) in *.
    apply Qnot_le_lt; intros C.
    assert (P * L <= x * D).
    { apply Qle_trans with (y := P * D).
      - apply Qmult_le_l; assumption.
      - apply Qmult_le_r; assumption. }
    rewrite X in *. apply (Qlt_irrefl A).
    now apply Qlt_le_trans with (y := P * L). }
  assert (Hlo : 2 ^ (e0 - 1) < Zpos a # d).
  { assert (E : 2 ^ Z.log2 (Zpos a)
                == 2 ^ (e0 - 1) * 2 ^ (Z.log2 (Zpos d) + 1)).
    { rewrite <- Qpower_plus by discriminate.
      replace (e0 - 1 + (Z.log2 (Zpos d) + 1))%Z with (Z.log2 (Zpos a))
        by (unfold e0; lia).
      reflexivity. }
    pose proof (pow2_pos (e0 - 1)).
    rewrite E in La.
    set (x := Zpos a # d) in *; set (P := 2 ^ (e0 - 1)) in *.
    set (U := 2 ^ (Z.log2 (Zpos d) + 1)) in *.
    set (D := inject_Z (Zpos d)) in *; set (A := inject_Z (Zpos a)) in *.
    apply Qnot_le_lt; intros C.
    assert (x * D < P * U).
    { apply Qle_lt_trans with (y := P * D).
      - apply Qmult_le_r; assumption.
      - apply Qmult_lt_l; assumption. }
    rewrite X in *. apply (Qlt_irrefl A).
    now apply Qlt_le_trans with (y := P * U). }
  pose proof (cmp_pow a d e0 e0 (Z.le_refl _)) as C.
  rewrite Z.sub_diag, Z.pow_0_r, Z.mul_1_r in C.
  destruct (Z.ltb_spec (Zpos a * 2 ^ Z.max 0 (- e0)) (Zpos d * 2 ^ Z.max 0 e0))
    as [T|T].
  - apply C in T.
    replace (e0 - 1 + 1)%Z with e0 by lia.
    split; [now apply Qlt_le_weak | exact T].
  - split; [|exact Hhi].
    apply Qnot_lt_le; intros H; apply C in H; lia.
Qed.

Lemma exponent_mono (a d a' d' : positive) :
  Zpos a # d <= Zpos a' # d' -> (exponent a d <= exponent a' d')%Z.
Proof.
  intros H.
  destruct (exponent_spec a d) as [L _], (exponent_spec a' d') as [_ U].
  assert (Hlt : 2 ^ exponent a d < 2 ^ (exponent a' d' + 1)).
  { apply Qle_lt_trans with (y := Zpos a # d); [exact L|].
    now apply Qle_lt_trans with (y := Zpos a' # d'). }
  apply Qpower_lt_compat_l_inv in Hlt; [lia | reflexivity].
Qed.

(** *** Rounding to binary64 is monotone *)

Lemma quantum_pos (d : positive) (q : Z) : (0 < Zpos d * 2 ^ Z.max 0 q)%Z.
Proof. apply Z.mul_pos_pos; [lia | apply Z.pow_pos_nonneg; lia]. Qed.

Lemma nearest_le_pow (a d : positive) (q k : Z) :
  (q <= k)%Z -> Zpos a # d < 2 ^ k ->
  (nearest_even (Zpos a * 2 ^ Z.max 0 (- q)) (Zpos d * 2 ^ Z.max 0 q)
   <= 2 ^ (k - q))%Z.
Proof.
  intros Hk H; apply (cmp_pow a d q k Hk) in H.
  pose proof (quantum_pos d q) as HD.
  rewrite <- (nearest_even_int (2 ^ (k - q)) _ HD).
  apply nearest_even_mono_num; [exact HD | lia].
Qed.

Lemma nearest_ge_pow (a d : positive) (q k : Z) :
  (q <= k)%Z -> 2 ^ k <= Zpos a # d ->
  (2 ^ (k - q)
   <= nearest_even (Zpos a * 2 ^ Z.max 0 (- q)) (Zpos d * 2 ^ Z.max 0 q))%Z.
Proof.
  intros Hk H.
  pose proof (quantum_pos d q) as HD.
  assert (G : (Zpos d * 2 ^ Z.max 0 q * 2 ^ (k - q)
               <= Zpos a * 2 ^ Z.max 0 (- q))%Z).
  { apply Z.nlt_ge; intros C; apply (cmp_pow a d q k Hk) in C.
    now apply (Qlt_not_le _ _ C). }
  rewrite <- (nearest_even_int (2 ^ (k - q)) _ HD).
  apply nearest_even_mono_num; [exact HD | lia].
Qed.

Lemma clamp_mono (r r' : Q) :
  r <= r' ->
  (if Qle_bool inf (Qred r) then inf else Qred r)
  <= (if Qle_bool inf (Qred r') then inf else Qred r').
Proof.
  intros H.
  destruct (Qle_bool inf (Qred r)) eqn:E, (Qle_bool inf (Qred r')) eqn:E'.
  - apply Qle_refl.
  - apply Qle_bool_iff in E; rewrite Qred_correct in E.
    assert (C : Qle_bool inf (Qred r') = true)
      by (apply Qle_bool_iff; rewrite Qred_correct;
          now apply Qle_trans with (y := r)).
    congruence.
  - apply Qlt_le_weak, Qnot_le_lt; intros C.
    apply Qle_bool_iff in C; congruence.
  - now rewrite !Qred_correct.
Qed.

Lemma nearest64_mono (a d a' d' : positive) :
  Zpos a # d <= Zpos a' # d' -> nearest64 a d <= nearest64 a' d'.
Proof.
  intros H; unfold nearest64; cbv zeta; apply clamp_mono.
  pose proof (exponent_mono a d a' d' H) as He.
  destruct (exponent_spec a d) as [_ U], (exponent_spec a' d') as [L' _].
  set (e := exponent a d) in *; set (e' := exponent a' d') in *.
  set (q := Z.max (e - 52) (-1074)); set (q' := Z.max (e' - 52) (-1074)).
  destruct (Z.eq_dec q q') as [Eq | Nq].
  - rewrite <- Eq.
    apply Qmult_le_compat_r; [|apply Qlt_le_weak, pow2_pos].
    rewrite <- Zle_Qle.
    apply nearest_even_mono; try apply quantum_pos.
    unfold Qle in H; cbn [Qnum Qden] in H.
    replace (Zpos a * 2 ^ Z.max 0 (- q) * (Zpos d' * 2 ^ Z.max 0 q))%Z
      with (Zpos a * Zpos d' * (2 ^ Z.max 0 (- q) * 2 ^ Z.max 0 q))%Z by ring.
    replace (Zpos a' * 2 ^ Z.max 0 (- q) * (Zpos d * 2 ^ Z.max 0 q))%Z
      with (Zpos a' * Zpos d * (2 ^ Z.max 0 (- q) * 2 ^ Z.max 0 q))%Z by ring.
    apply Z.mul_le_mono_nonneg_r; [|exact H].
    apply Z.mul_nonneg_nonneg; apply Z.pow_nonneg; lia.
  - assert (Hq : (q < q')%Z) by (unfold q, q' in *; lia).
    assert (Eq' : q' = (e' - 52)%Z) by (unfold q, q' in *; lia).
    set (k := Z.max (e + 1) q).
    assert (Hk : (q <= k)%Z) by (unfold k; lia).
    assert (Hke : (k <= e')%Z) by (unfold k, q, q' in *; lia).
    assert (Hx : Zpos a # d < 2 ^ k).
    { apply Qlt_le_trans with (y := 2 ^ (e + 1)); [exact U|].
      apply Qpower_le_compat_l; [unfold k; lia | discriminate]. }
    pose proof (nearest_le_pow a d q k Hk Hx) as M.
    pose proof (nearest_ge_pow a' d' q' e' ltac:(lia) L') as M'.
    rewrite Zle_Qle in M, M'.
    rewrite inject_pow2 in M, M' by lia.
    apply Qle_trans with (y := 2 ^ (k - q) * 2 ^ q);
      [apply Qmult_le_compat_r; [exact M | apply Qlt_le_weak, pow2_pos]|].
    apply Qle_trans with (y := 2 ^ (e' - q') * 2 ^ q');
      [|apply Qmult_le_compat_r; [exact M' | apply Qlt_le_weak, pow2_pos]].
    rewrite <- !Qpower_plus by discriminate.
    apply Qpower_le_compat_l; [lia | discriminate].
Qed.

Lemma inf_pos : 0 < inf.
Proof. reflexivity. Qed.

Lemma nearest64_nonneg (a d : positive) : 0 <= nearest64 a d.
Proof.
  unfold nearest64; cbv zeta.
  destruct (Qle_bool inf _); [apply Qlt_le_weak, inf_pos|].
  rewrite Qred_correct.
  apply Qmult_le_0_compat; [|apply Qlt_le_weak, pow2_pos].
  change 0 with (inject_Z 0); rewrite <- Zle_Qle.
  apply nearest_even_nonneg; [|apply quantum_pos].
  apply Z.mul_nonneg_nonneg; [lia | apply Z.pow_nonneg; lia].
Qed.

Lemma round64_nonneg (x : Q) : 0 <= x -> 0 <= round64 x.
Proof.
  destruct x as [[|a|a] d]; unfold round64; cbn [Qnum Qden]; intros H.
  - apply Qle_refl.
  - apply nearest64_nonneg.
  - exfalso; revert H; unfold Qle; cbn; lia.
Qed.

Lemma round64_opp (x : Q) : round64 (- x) == - round64 x.
Proof.
  destruct x as [[|a|a] d]; unfold round64; cbn [Qnum Qden Qopp Z.opp];
    [reflexivity | reflexivity | now rewrite Qopp_opp].
Qed.

(** Rounding never reverses the order of two exact results. *)
Lemma round64_mono (x y : Q) : x <= y -> round64 x <= round64 y.
Proof.
  destruct x as [[|a|a] d], y as [[|a'|a'] d']; unfold round64;
    cbn [Qnum Qden]; intros H;
    try (exfalso; revert H; unfold Qle; cbn; lia).
  - apply Qle_refl.
  - apply nearest64_nonneg.
  - now apply nearest64_mono.
  - apply Qopp_le_compat with (p := 0), nearest64_nonneg.
  - apply Qle_trans with (y := 0);
      [apply Qopp_le_compat with (p := 0) | ]; apply nearest64_nonneg.
  - apply Qopp_le_compat, nearest64_mono.
    revert H; unfold Qle; cbn; lia.
Qed.

(** A double plus a double that is not positive does not exceed it. *)
Lemma fadd_nonpos (a b : Q) :
  isfinite a = true -> isfinite b = true -> round64 a == a -> b <= 0 ->
  fadd a b <= a.
Proof.
  intros Ha Hb Da Hn; unfold fadd; rewrite Ha, Hb.
  rewrite <- Da at 2; apply round64_mono; lra.
Qed.

Lemma float_of_int_sign (z : Z) (s : Q) :
  float_of_int z = Ret s -> isfinite s = true /\ ((z <= 0)%Z -> s <= 0).
Proof.
  unfold float_of_int; cbv zeta.
  destruct (isfinite (round64 (inject_Z z))) eqn:E; [|discriminate].
  intros G; injection G as <-; split; [exact E|].
  intros Hz; change 0 with (round64 0).
  apply round64_mono.
  change 0 with (inject_Z 0); now rewrite <- Zle_Qle.
Qed.

Lemma round64_minus_one : round64 (-1) = -1.
Proof. vm_compute; reflexivity. Qed.

Lemma isfinite_opp (b : Q) : isfinite b = true -> isfinite (- b) = true.
Proof.
  unfold isfinite; intros Hb.
  destruct (Qle_bool inf (Qabs (- b))) eqn:E; [|reflexivity].
  apply Qle_bool_iff in E; rewrite Qabs_opp in E.
  apply Qle_bool_iff in E; now rewrite E in Hb.
Qed.

(** The double difference has the sign of the exact difference, and a
    whole second of exact difference is a whole second of double
    difference. *)
Lemma fsub_nonneg (a b : Q) :
  isfinite a = true -> isfinite b = true -> b <= a -> 0 <= fsub a b.
Proof.
  intros Ha Hb Hle; unfold fsub, fadd; rewrite Ha, (isfinite_opp b Hb).
  apply round64_nonneg; lra.
Qed.

Lemma fsub_whole_second_past (a b : Q) :
  isfinite a = true -> isfinite b = true -> a - b <= -1 -> fsub a b <= -1.
Proof.
  intros Ha Hb Hle; unfold fsub, fadd; rewrite Ha, (isfinite_opp b Hb).
  rewrite <- round64_minus_one; apply round64_mono; lra.
Qed.

End Binary64.

(* ================================================================== *)
(** ** SET *)

(** C6 (as stated, refuted).  [SET k v x] has four elements; the reply is
    the status OK, not an error, and the store is changed. *)
Lemma set_with_extra_argument :
  handle_command 0 [lit "SET"; lit "k"; lit "v"; lit "x"] []
  = (Ret (ascii_bytes "+OK" ++ CRLF), [(lit "k", (lit "v", None))]).
Proof. vm_compute; reflexivity. Qed.

(** C6 (amended).  For a command whose first element upper-cases to SET:
    with fewer than three elements the reply is the error naming SET and
    the store is unchanged; with three or more, the key (second element)
    is bound to the value (third element) with no expiry, further
    elements are ignored, every other key keeps its entry, and the reply
    is the status OK. *)
Theorem set_command (now : Q) (args : list str) (data : dict) :
  upper (nth 0 args []) = lit "SET" ->
  handle_command now args data
  = (if (length args <? 3)%nat
     then (Ret (ascii_bytes "-ERR wrong number of arguments for 'SET'" ++ CRLF),
           data)
     else (Ret (ascii_bytes "+OK" ++ CRLF),
           set_value (nth 1 args []) (nth 2 args []) None data))
  /\ lookup (nth 1 args [])
       (set_value (nth 1 args []) (nth 2 args []) None data)
     = Some (nth 2 args [], None)
  /\ (forall k : str,
        k <> nth 1 args [] ->
        lookup k (set_value (nth 1 args []) (nth 2 args []) None data)
        = lookup k data).
Proof.
  intros H; repeat split.
  - dispatch H; reflexivity.
  - apply lookup_assign_same.
  - intros k Hk; now apply lookup_assign_other.
Qed.

(** C6 (amended), on [set k v] over a store where [k] has an expiry. *)
Lemma set_command_witness :
  handle_command 7 [lit "set"; lit "k"; lit "v"] [(lit "k", (lit "old", Some 9%Q))]
  = (Ret (ascii_bytes "+OK" ++ CRLF), [(lit "k", (lit "v", None))]).
Proof.
  exact (proj1 (set_command 7 [lit "set"; lit "k"; lit "v"]
                  [(lit "k", (lit "old", Some 9%Q))] eq_refl)).
Defined.

(* ================================================================== *)
(** ** TTL *)

(** C2 (as stated, refuted).  With the expiry equal to the clock reading
    the remaining time is 0; the reply is the integer 0 and the key stays
    in the store. *)
Lemma ttl_at_expiry_instant :
  handle_command 100 [lit "TTL"; lit "k"] [(lit "k", (lit "v", Some 100%Q))]
  = (Ret (ascii_bytes ":0" ++ CRLF), [(lit "k", (lit "v", Some 100%Q))]).
Proof. vm_compute; reflexivity. Qed.

(** C2 (amended).  TTL on key [k]: -2 if [k] is missing; -1 if [k] has no
    expiry; otherwise the remaining time is the double
    [expires_at - now]: if it is -1 or below, [k] is deleted and the
    reply is -2; if it is 0 or above, the reply is its floor and the
    store is unchanged.  The double is -1 or below when the expiry lies
    at least one second in the past, and 0 or above when the expiry is
    not in the past. *)
Theorem ttl_command (now : Q) (args : list str) (data : dict) :
  upper (nth 0 args []) = lit "TTL" ->
  (2 <= length args)%nat ->
  (lookup (nth 1 args []) data = None ->
   handle_command now args data = (Ret (x3a :: dec (-2) ++ CRLF), data))
  /\ (forall v : str,
        lookup (nth 1 args []) data = Some (v, None) ->
        handle_command now args data = (Ret (x3a :: dec (-1) ++ CRLF), data))
  /\ (forall (v : str) (t : Q),
        lookup (nth 1 args []) data = Some (v, Some t) ->
        isfinite (fsub t now) = true ->
        (fsub t now <= -1)%Q ->
        handle_command now args data
        = (Ret (x3a :: dec (-2) ++ CRLF), remove (nth 1 args []) data))
  /\ (forall (v : str) (t : Q),
        lookup (nth 1 args []) data = Some (v, Some t) ->
        isfinite (fsub t now) = true ->
        (0 <= fsub t now)%Q ->
        handle_command now args data
        = (Ret (x3a :: dec (Qfloor (fsub t now)) ++ CRLF), data))
  /\ (forall t : Q,
        isfinite t = true -> isfinite now = true ->
        ((t - now <= -1)%Q -> (fsub t now <= -1)%Q)
        /\ ((now <= t)%Q -> (0 <= fsub t now)%Q)).
Proof.
  intros H Hlen.
  dispatch H.
  replace (length (a0 :: rest) <? 2)%nat with false
    by (symmetry; now apply Nat.ltb_ge).
  cbn [nth]; split; [|split; [|split; [|split]]];
    [| | | |intros t Ft Fn; split;
            [now apply fsub_whole_second_past | now apply fsub_nonneg]].
  - intros ->; now rewrite integer_bytes.
  - intros v ->; now rewrite integer_bytes.
  - intros v t -> Hf Ht.
    unfold int_of_float; rewrite Hf.
    apply Qtrunc_whole_second_past, Z.ltb_lt in Ht; rewrite Ht.
    now rewrite integer_bytes.
  - intros v t -> Hf Ht.
    unfold int_of_float; rewrite Hf.
    rewrite (Qtrunc_nonneg _ Ht).
    pose proof (Qfloor_resp_le 0 (fsub t now) Ht) as Hfl.
    change (Qfloor 0) with 0 in Hfl.
    replace (Qfloor (fsub t now) <? 0) with false
      by (symmetry; now apply Z.ltb_ge).
    now rewrite integer_bytes.
Qed.

(** C2 (amended), on a key with 2.5 seconds left. *)
Lemma ttl_command_witness :
  handle_command (195 # 2) [lit "TTL"; lit "k"] [(lit "k", (lit "v", Some 100%Q))]
  = (Ret (ascii_bytes ":2" ++ CRLF), [(lit "k", (lit "v", Some 100%Q))]).
Proof.
  exact (proj1 (proj2 (proj2 (proj2
           (ttl_command (195 # 2) [lit "TTL"; lit "k"]
              [(lit "k", (lit "v", Some 100%Q))] eq_refl (le_n 2)))))
           (lit "v") 100%Q eq_refl eq_refl ltac:(vm_compute; discriminate)).
Defined.

(** The remaining time is the rounded difference, not the exact one:
    with the expiry at 10^16 and the clock at 0.5 the exact difference
    has floor 10^16 - 1, the double difference is 10^16. *)
Lemma ttl_rounds_the_difference :
  handle_command (1 # 2) [lit "TTL"; lit "k"]
    [(lit "k", (lit "v", Some 10000000000000000%Q))]
  = (Ret (ascii_bytes ":10000000000000000" ++ CRLF),
     [(lit "k", (lit "v", Some 10000000000000000%Q))])
  /\ Qfloor (10000000000000000 - (1 # 2)) = 9999999999999999.
Proof. split; vm_compute; reflexivity. Qed.

(** A stamp that is an infinity makes [int()] raise. *)
Lemma ttl_infinite_stamp (now : Q) (k v : str) (t : Q) (data : dict) :
  lookup k data = Some (v, Some t) -> isfinite t = false ->
  handle_command now [lit "TTL"; k] data = (Raise OverflowError, data).
Proof.
  intros Hk Hf.
  unfold handle_command; cbv zeta.
  change (upper (lit "TTL")) with (lit "TTL"); names.
  cbn [length Nat.ltb Nat.leb nth]; rewrite Hk.
  unfold int_of_float, fsub, fadd; now rewrite Hf, Hf.
Qed.

(* ================================================================== *)
(** ** EXPIRE *)

(** C5 (as stated, refuted).  EXPIRE on a key whose expiry has passed
    answers 0 but does have an effect: the entry is deleted from the
    store.  And an entry whose expiry is the timestamp 0 is treated as
    having no expiry: EXPIRE answers 1 and gives it a new one. *)
Lemma expire_on_expired_key :
  handle_command 5 [lit "EXPIRE"; lit "k"; lit "10"]
    [(lit "k", (lit "v", Some 1%Q))]
  = (Ret (ascii_bytes ":0" ++ CRLF), [])
  /\ handle_command 5 [lit "EXPIRE"; lit "k"; lit "10"]
       [(lit "k", (lit "v", Some 0%Q))]
     = (Ret (ascii_bytes ":1" ++ CRLF), [(lit "k", (lit "v", Some 15%Q))]).
Proof. split; vm_compute; reflexivity. Qed.

Lemma contains_lookup {V} (k : str) (d : list (str * V)) (v : V) :
  lookup k d = Some v -> contains k d = true.
Proof. unfold contains; now intros ->. Qed.

(** C5 (amended).  EXPIRE with a key and a seconds argument: if the
    seconds do not parse as an integer, the reply is the "not an integer"
    error and the store is unchanged; if the key is missing, the reply is
    0 and the store is unchanged; if the key has a non-zero expiry earlier
    than now, the reply is 0, that entry is deleted and no other entry is
    touched; if the key has no expiry, or an expiry not earlier than now,
    and the seconds are within the range of a double, its expiry becomes
    the double sum of now and the seconds, of either sign, its value is
    kept and the reply is 1.  At every clock reading later than that
    stamp, if the stamp is not 0, GET deletes the key and answers nil;
    with seconds zero or negative the stamp is not later than now
    (a double), so that holds at every clock reading later than now. *)
Theorem expire_command (now : Q) (args : list str) (data : dict) :
  upper (nth 0 args []) = lit "EXPIRE" ->
  (3 <= length args)%nat ->
  (int_of_str (nth 2 args []) = None ->
   handle_command now args data
   = (Ret (ascii_bytes "-ERR value is not an integer" ++ CRLF), data))
  /\ (forall secs : Z,
        int_of_str (nth 2 args []) = Some secs ->
        (lookup (nth 1 args []) data = None ->
         handle_command now args data = (Ret (x3a :: dec 0 ++ CRLF), data))
        /\ (forall (v : str) (t : Q),
              lookup (nth 1 args []) data = Some (v, Some t) ->
              ~ (t == 0)%Q -> (t < now)%Q ->
              handle_command now args data
              = (Ret (x3a :: dec 0 ++ CRLF), remove (nth 1 args []) data))
        /\ (forall (v : str) (e : option Q) (s : Q),
              lookup (nth 1 args []) data = Some (v, e) ->
              (e = None \/ exists t, e = Some t /\ (now <= t)%Q) ->
              float_of_int secs = Ret s ->
              handle_command now args data
              = (Ret (x3a :: dec 1 ++ CRLF),
                 assign (nth 1 args []) (v, Some (fadd now s)) data)
              /\ (forall later : Q,
                    ~ (fadd now s == 0)%Q -> (fadd now s < later)%Q ->
                    handle_command later [lit "GET"; nth 1 args []]
                      (assign (nth 1 args []) (v, Some (fadd now s)) data)
                    = (Ret [x24; x2d; x31; CR; LF],
                       remove (nth 1 args [])
                         (assign (nth 1 args []) (v, Some (fadd now s)) data))
                    /\ lookup (nth 1 args [])
                         (remove (nth 1 args [])
                            (assign (nth 1 args []) (v, Some (fadd now s)) data))
                       = None)
              /\ (secs <= 0 -> isfinite now = true ->
                  (round64 now == now)%Q -> (fadd now s <= now)%Q))).
Proof.
  intros H Hlen.
  dispatch H.
  replace (length (a0 :: rest) <? 3)%nat with false
    by (symmetry; now apply Nat.ltb_ge).
  cbn [nth]; set (key := nth 0 rest []); set (arg := nth 1 rest []).
  split; [intros ->; reflexivity|].
  intros secs ->; split; [|split].
  - intros Hk; unfold contains; rewrite Hk; cbn [negb].
    now rewrite integer_bytes.
  - intros v t Hk Hz Hlt.
    rewrite (contains_lookup _ _ _ Hk); cbn [negb].
    unfold is_expired; rewrite Hk, (timed_out_past now t Hz Hlt).
    now rewrite integer_bytes.
  - intros v e s Hk He Hs; split; [|split].
    3:{ intros Hz Fn Dn.
        destruct (float_of_int_sign secs s Hs) as [Fs Hneg].
        apply fadd_nonpos; auto. }
    + rewrite (contains_lookup _ _ _ Hk); cbn [negb].
      unfold is_expired; rewrite Hk.
      assert (Ht : timed_out now e = false).
      { destruct He as [-> | [t [-> Ht]]];
          [reflexivity | now apply timed_out_not_yet]. }
      rewrite Ht; unfold item; rewrite Hk, Hs.
      now rewrite integer_bytes.
    + intros later Hz Hl; split; [|apply lookup_remove_same].
      unfold handle_command; cbv zeta.
      change (upper (lit "GET")) with (lit "GET"); names.
      cbn [length Nat.ltb Nat.leb nth].
      unfold get_value, is_expired; rewrite lookup_assign_same.
      now rewrite (timed_out_past later _ Hz Hl).
Qed.

(** C5 (amended), on [EXPIRE k -3] for a key without expiry at time 5,
    and [GET k] one second later. *)
Lemma expire_command_witness :
  handle_command 5 [lit "EXPIRE"; lit "k"; lit "-3"] [(lit "k", (lit "v", None))]
  = (Ret (ascii_bytes ":1" ++ CRLF), [(lit "k", (lit "v", Some 2%Q))])
  /\ handle_command 6 [lit "GET"; lit "k"] [(lit "k", (lit "v", Some 2%Q))]
     = (Ret [x24; x2d; x31; CR; LF], [])
  /\ (2 <= 5)%Q.
Proof.
  pose proof (proj2 (proj2
                (proj2 (expire_command 5 [lit "EXPIRE"; lit "k"; lit "-3"]
                          [(lit "k", (lit "v", None))] eq_refl (le_n 3))
                   (-3) eq_refl))
                (lit "v") None (-3)%Q eq_refl (or_introl eq_refl) eq_refl)
    as [A [B C]].
  split; [exact A | split].
  - refine (proj1 (B 6%Q _ _)); vm_compute; [discriminate | reflexivity].
  - apply C; [discriminate | reflexivity | reflexivity].
Defined.

(** Seconds beyond the range of a double: the conversion of line 155
    raises [OverflowError], which nothing catches, and the store is the
    one the command was given. *)
Lemma expire_beyond_float_range
  (now : Q) (k s v : str) (secs : Z) (e : option Q) (data : dict) :
  int_of_str s = Some secs -> float_of_int secs = Raise OverflowError ->
  lookup k data = Some (v, e) -> timed_out now e = false ->
  handle_command now [lit "EXPIRE"; k; s] data = (Raise OverflowError, data).
Proof.
  intros Hs Hx Hk Ht.
  unfold handle_command; cbv zeta.
  change (upper (lit "EXPIRE")) with (lit "EXPIRE"); names.
  cbn [length Nat.ltb Nat.leb nth]; rewrite Hs.
  rewrite (contains_lookup _ _ _ Hk); cbn [negb].
  unfold is_expired, item; now rewrite Hk, Ht, Hk, Hx.
Qed.

(* ================================================================== *)
(** ** Lazy expiration on the read paths *)

(** GET on a key whose non-zero expiry has passed deletes the entry and
    answers nil. *)
Lemma get_purges_expired (now : Q) (args : list str) (data : dict)
  (v : str) (t : Q) :
  upper (nth 0 args []) = lit "GET" ->
  (2 <= length args)%nat ->
  lookup (nth 1 args []) data = Some (v, Some t) ->
  ~ (t == 0)%Q -> (t < now)%Q ->
  handle_command now args data
  = (Ret [x24; x2d; x31; CR; LF], remove (nth 1 args []) data).
Proof.
  intros H Hlen Hk Hz Hlt.
  dispatch H.
  replace (length (a0 :: rest) <? 2)%nat with false
    by (symmetry; now apply Nat.ltb_ge).
  cbn [nth] in *; unfold get_value, is_expired.
  now rewrite Hk, (timed_out_past now t Hz Hlt).
Qed.

(** C3 (the code departs from the claim).  At clock reading 100.5 the
    entry with expiry 100 is expired for [is_expired], the test GET and
    KEYS use; TTL on it answers the integer 0 and leaves it in the
    store. *)
Theorem ttl_keeps_recently_expired :
  is_expired (201 # 2) (lit "k") [(lit "k", (lit "v", Some 100%Q))] = (true, [])
  /\ handle_command (201 # 2) [lit "TTL"; lit "k"]
       [(lit "k", (lit "v", Some 100%Q))]
     = (Ret (ascii_bytes ":0" ++ CRLF), [(lit "k", (lit "v", Some 100%Q))]).
Proof. split; vm_compute; reflexivity. Qed.

(** The same departure on the other two read paths: an entry whose
    expiry is the timestamp 0 is returned by GET at any later time, and
    KEYS raises as soon as it meets an expired entry, after deleting
    it. *)
Lemma get_keeps_epoch_zero :
  handle_command 5 [lit "GET"; lit "k"] [(lit "k", (lit "v", Some 0%Q))]
  = (Ret (ascii_bytes "$1" ++ CRLF ++ ascii_bytes "v" ++ CRLF),
     [(lit "k", (lit "v", Some 0%Q))]).
Proof. vm_compute; reflexivity. Qed.

(** C9 (the code departs from the claim).  KEYS on a store that holds an
    expired entry deletes that entry inside the loop over the
    dictionary and raises [RuntimeError]; no reply is returned. *)
Theorem keys_raises_on_expired_entry :
  handle_command 200 [lit "KEYS"]
    [(lit "a", (lit "1", Some 100%Q)); (lit "b", (lit "2", None))]
  = (Raise RuntimeError, [(lit "b", (lit "2", None))]).
Proof. vm_compute; reflexivity. Qed.

(** Every store with a timed-out entry makes KEYS raise. *)
Lemma live_keys_raises (now : Q) (ks : list str) :
  forall (data : dict) (acc : list str),
  (exists k v e, In k ks /\ lookup k data = Some (v, e)
                 /\ timed_out now e = true) ->
  (forall k, In k ks -> contains k data = true) ->
  exists data', live_keys now ks data acc = (Raise RuntimeError, data').
Proof.
  induction ks as [|k ks IH]; intros data acc (k0 & v & e & Hin & Hk & Ht) Hall;
    [destruct Hin|].
  cbn [live_keys]; unfold is_expired.
  assert (Hc : contains k data = true) by (apply Hall; now left).
  unfold contains in Hc.
  destruct (lookup k data) as [[v' e']|] eqn:Ek; [|discriminate].
  destruct (timed_out now e') eqn:Et.
  - assert (Hlen : (length (remove k data) =? length data)%nat = false).
    { apply Nat.eqb_neq.
      assert (G : forall d : dict,
                 lookup k d <> None -> (length (remove k d) < length d)%nat).
      { induction d as [|[k1 v1] d IHd]; cbn; [congruence|].
        destruct (str_eqb k k1); intros Hd.
        - assert (length (remove k d) <= length d)%nat; [|lia].
          clear; induction d as [|[k2 v2] d IHd]; cbn; [lia|].
          destruct (str_eqb k k2); cbn; lia.
        - specialize (IHd Hd); cbn; lia. }
      specialize (G data); rewrite Ek in G.
      assert (length (remove k data) < length data)%nat by (apply G; discriminate).
      lia. }
    rewrite Hlen; cbn [negb]; eauto.
  - rewrite Nat.eqb_refl; cbn [negb].
    apply IH; [|intros k1 H1; apply Hall; now right].
    destruct Hin as [-> | Hin]; [congruence|].
    now exists k0, v, e.
Qed.

Lemma lookup_in_keys {V} (k : str) (d : list (str * V)) (v : V) :
  lookup k d = Some v -> In k (map fst d).
Proof.
  induction d as [|[k' v'] d IH]; cbn; [discriminate|].
  destruct (str_eqb k k') eqn:E; [|intros H; right; now apply IH].
  apply str_eqb_eq in E; now left.
Qed.

Lemma keys_contained {V} (k : str) (d : list (str * V)) :
  In k (map fst d) -> contains k d = true.
Proof.
  unfold contains; induction d as [|[k' v'] d IH]; cbn; [tauto|].
  intros [-> | H]; [now rewrite str_eqb_refl|].
  destruct (str_eqb k k'); [reflexivity | now apply IH].
Qed.

(** KEYS raises on every store that holds a timed-out entry. *)
Lemma keys_raises (now : Q) (data : dict) (k v : str) (e : option Q) :
  lookup k data = Some (v, e) -> timed_out now e = true ->
  exists data', handle_command now [lit "KEYS"] data = (Raise RuntimeError, data').
Proof.
  intros Hk Ht.
  destruct (live_keys_raises now (map fst data) data []) as [data' R].
  - exists k, v, e; repeat split; try assumption.
    now apply lookup_in_keys with (v := (v, e)).
  - intros k1 H1; now apply keys_contained.
  - exists data'.
    unfold handle_command; cbv zeta.
    change (upper (lit "KEYS")) with (lit "KEYS"); names.
    now rewrite R.
Qed.

(* ================================================================== *)
(** ** Persistence *)

(** C7 (the code departs from the claim).  At load time 5 a snapshot
    with two records whose expiry has passed gives back the one whose
    expiry is the timestamp 0; at save time 5 that entry is written
    again. *)
Theorem epoch_zero_record_survives :
  load_data 5
    (Some [(lit "k", (lit "v", Some 0%Q)); (lit "j", (lit "w", Some 1%Q))]) []
  = [(lit "k", (lit "v", Some 0%Q))]
  /\ save_data 5 [(lit "k", (lit "v", Some 0%Q)); (lit "j", (lit "w", Some 1%Q))]
     = [(lit "k", (lit "v", Some 0%Q))].
Proof. split; vm_compute; reflexivity. Qed.

Lemma assign_fresh {V} (k : str) (v : V) (d : list (str * V)) :
  ~ In k (map fst d) -> assign k v d = d ++ [(k, v)].
Proof.
  induction d as [|[k' v'] d IH]; cbn; [reflexivity|].
  intros H; rewrite str_eqb_neq by (intros ->; apply H; now left).
  rewrite IH; [reflexivity | intros Hin; apply H; now right].
Qed.

Lemma fold_keep_live (now : Q) (l : list (str * entry)) :
  forall acc : list (str * entry),
  NoDup (map fst (acc ++ l)) ->
  fold_left (keep_live now) l acc = acc ++ filter (kept now) l.
Proof.
  induction l as [|[k [v e]] l IH]; intros acc Hnd;
    [cbn; now rewrite app_nil_r|].
  cbn [fold_left keep_live filter]; unfold kept at 1; cbn [snd].
  rewrite map_app in Hnd; cbn [map fst] in Hnd.
  destruct (timed_out now e); cbn [negb].
  - apply IH; rewrite map_app; now apply NoDup_remove_1 in Hnd.
  - rewrite assign_fresh.
    + rewrite IH; [now rewrite <- app_assoc|].
      now rewrite <- app_assoc, map_app.
    + apply NoDup_remove_2 in Hnd.
      intros Hin; apply Hnd, in_or_app; now left.
Qed.

(** X16.  With distinct keys, saving writes, and loading into an empty
    store reinserts, exactly the records that have not timed out, in
    their order; a missing file leaves the store empty. *)
Lemma persistence_keeps_live (now : Q) (l : list (str * entry)) :
  NoDup (map fst l) ->
  save_data now l = filter (kept now) l
  /\ load_data now (Some l) [] = filter (kept now) l
  /\ load_data now None [] = [].
Proof.
  intros H; unfold save_data, load_data.
  now rewrite (fold_keep_live now l []).
Qed.

(* ================================================================== *)
(** * Further properties of the parser *)

Lemma byte_eqb_neq (a b : byte) : a <> b -> Byte.eqb a b = false.
Proof.
  intros H; destruct (Byte.eqb a b) eqn:E; [|reflexivity].
  apply Byte.byte_dec_bl in E; contradiction.
Qed.

Lemma slice_first (c : byte) (t : bytes) : slice (c :: t) 0 1 = [c].
Proof. now apply (slice_mid [] [c] t). Qed.

Lemma find_none (b : bytes) : no_cr b -> find CRLF b 0 = -1.
Proof.
  intros H.
  pose proof (find_from [] b 0 eq_refl) as F; cbn [app] in F; rewrite F.
  now apply (find_at_miss b b [CR]).
Qed.

(** The header facts for any count text [dec n]. *)
Lemma count_line_at (n : Z) (rest : bytes) :
  slice (x2a :: dec n ++ CRLF ++ rest) 0 1 = [x2a]
  /\ find CRLF (x2a :: dec n ++ CRLF ++ rest) 0 = 1 + len (dec n)
  /\ slice (x2a :: dec n ++ CRLF ++ rest) 1 (1 + len (dec n)) = dec n
  /\ slice_from (x2a :: dec n ++ CRLF ++ rest) (1 + len (dec n) + 2) = rest.
Proof.
  set (D := dec n); pose proof (len_nonneg D).
  repeat split.
  - apply slice_first.
  - pose proof (find_from [] (x2a :: D ++ CRLF ++ rest) 0 eq_refl) as F.
    cbn [app] in F; rewrite F.
    change (x2a :: D ++ CRLF ++ rest) with ((x2a :: D) ++ CR :: LF :: rest).
    rewrite find_at_hit, len_cons, len_nil;
      [lia | constructor; [discriminate | apply dec_no_cr]].
  - apply (slice_mid [x2a] D (CRLF ++ rest)); [reflexivity|].
    change (len [x2a]) with 1; lia.
  - replace (x2a :: D ++ CRLF ++ rest) with ((x2a :: D ++ CRLF) ++ rest)
      by list_eq.
    apply slice_from_app.
    unfold CRLF; rewrite len_cons, len_app, !len_cons, len_nil; lia.
Qed.

(** X1.  A count that [int()] rejects costs the buffer exactly its first
    byte: [get_command] answers [None], and the drain loop of
    [handle_client] stops there with the rest of the line still
    buffered, to be looked at again only after the next read. *)
Theorem malformed_count_recovery (d rest : bytes) (fuel : nat) :
  no_cr d -> int_of_bytes d = None ->
  get_command {| buffer := x2a :: d ++ CRLF ++ rest |}
  = (Ret None, {| buffer := d ++ CRLF ++ rest |})
  /\ drain (S fuel) {| buffer := x2a :: d ++ CRLF ++ rest |}
     = Some ([], None, {| buffer := d ++ CRLF ++ rest |}).
Proof.
  intros Hd Hi.
  pose proof (bad_count_drops_byte d rest Hd Hi) as G.
  split; [exact G | cbn [drain]; now rewrite G].
Qed.

(** X1, on [*x\r\nPING\r\n]. *)
Lemma malformed_count_recovery_witness :
  drain 1 {| buffer := [x2a; x78; CR; LF; x50; x49; x4e; x47; CR; LF] |}
  = Some ([], None, {| buffer := [x78; CR; LF; x50; x49; x4e; x47; CR; LF] |}).
Proof.
  refine (proj2 (malformed_count_recovery [x78] [x50; x49; x4e; x47; CR; LF] 0
                   _ eq_refl)).
  repeat constructor; discriminate.
Defined.

(** X2.  Input that does not start with [*] is an inline command: the
    text up to the first [\r\n] is decoded and split on whitespace, and
    exactly that line and its terminator are consumed. *)
Theorem inline_command (line rest : bytes) (s : str) :
  no_cr line -> (forall t, line <> x2a :: t) -> decode line = Some s ->
  get_command {| buffer := line ++ CRLF ++ rest |}
  = (Ret (Some (split s)), {| buffer := rest |}).
Proof.
  intros Hcr Hstar Hdec; pose proof (len_nonneg line).
  unfold get_command; cbn [buffer].
  assert (Hh : bytes_eqb (slice (line ++ CRLF ++ rest) 0 1) [x2a] = false).
  { destruct line as [|c line];
      [unfold CRLF; cbn [app]; now rewrite slice_first|].
    cbn [app]; rewrite slice_first; cbn [bytes_eqb].
    rewrite byte_eqb_neq; [reflexivity|].
    intros ->; now apply (Hstar line). }
  destruct (line ++ CRLF ++ rest) as [|b0 buf'] eqn:Eb;
    [destruct line; discriminate Eb|].
  rewrite <- Eb in *; clear Eb b0 buf'.
  rewrite Hh; unfold _parse_inline; cbn [buffer]; cbv zeta.
  pose proof (find_from [] (line ++ CRLF ++ rest) 0 eq_refl) as F.
  cbn [app] in F; rewrite F.
  change (line ++ CRLF ++ rest) with (line ++ CR :: LF :: rest).
  rewrite find_at_hit, len_nil by assumption.
  replace (0 + len line =? -1) with false by (symmetry; apply Z.eqb_neq; lia).
  rewrite (slice_to_app line (CR :: LF :: rest)) by lia.
  rewrite Hdec; do 2 f_equal.
  replace (line ++ CR :: LF :: rest) with ((line ++ CRLF) ++ rest) by list_eq.
  apply slice_from_app.
  unfold CRLF, len; rewrite length_app; cbn [length]; lia.
Qed.

(** X2, on [get  foo\r\n] followed by [x]. *)
Lemma inline_command_witness :
  get_command
    {| buffer := [x67; x65; x74; x20; x20; x66; x6f; x6f; CR; LF; x78] |}
  = (Ret (Some [lit "get"; lit "foo"]), {| buffer := [x78] |}).
Proof.
  refine (inline_command [x67; x65; x74; x20; x20; x66; x6f; x6f] [x78]
            (lit "get  foo") _ _ eq_refl).
  - repeat constructor; discriminate.
  - discriminate.
Defined.

(** X3.  Without a carriage return in the buffer there is no command
    yet, in the array form and in the inline form alike, and the buffer
    is kept as it is. *)
Theorem no_terminator_no_command (b : bytes) :
  no_cr b -> get_command {| buffer := b |} = (Ret None, {| buffer := b |}).
Proof.
  intros H; unfold get_command; cbn [buffer].
  destruct b as [|c b]; [reflexivity|].
  unfold _parse_array, _parse_inline; cbn [buffer]; cbv zeta.
  rewrite (find_none _ H).
  now destruct (bytes_eqb (slice (c :: b) 0 1) [x2a]).
Qed.

(** X3, on [*2] and on [PIN]. *)
Lemma no_terminator_no_command_witness :
  get_command {| buffer := [x2a; x32] |} = (Ret None, {| buffer := [x2a; x32] |})
  /\ get_command {| buffer := [x50; x49; x4e] |}
     = (Ret None, {| buffer := [x50; x49; x4e] |}).
Proof.
  split; apply no_terminator_no_command; repeat constructor; discriminate.
Defined.

(** X4.  A count of zero or below, written with no more digits than
    [int()] accepts, declares no element: the command is the empty
    vector, only the header is consumed, and the dispatcher answers the
    empty vector with the "empty command" error, leaving the store
    alone. *)
Theorem nonpositive_count_is_empty_command
  (n : Z) (rest : bytes) (now : Q) (data : dict) :
  n <= 0 -> count_digits (dec n) <= max_str_digits ->
  get_command {| buffer := x2a :: dec n ++ CRLF ++ rest |}
  = (Ret (Some []), {| buffer := rest |})
  /\ handle_command now [] data
     = (Ret (ascii_bytes "-ERR empty command" ++ CRLF), data).
Proof.
  intros Hn _; split; [|reflexivity].
  destruct (count_line_at n rest) as (S1 & F & S2 & S3).
  pose proof (len_nonneg (dec n)).
  unfold get_command; cbn [buffer].
  rewrite S1; change (bytes_eqb [x2a] [x2a]) with true; cbv iota.
  unfold _parse_array; cbn [buffer]; cbv zeta.
  rewrite F, S2, int_of_bytes_dec.
  replace (1 + len (dec n) =? -1) with false
    by (symmetry; apply Z.eqb_neq; lia).
  replace (Z.to_nat n) with 0%nat by lia.
  cbn [parse_items]; now rewrite S3.
Qed.

(** X4, on [*-3\r\n]. *)
Lemma nonpositive_count_is_empty_command_witness :
  get_command {| buffer := [x2a; x2d; x33; CR; LF; x41] |}
  = (Ret (Some []), {| buffer := [x41] |}).
Proof.
  exact (proj1 (nonpositive_count_is_empty_command (-3) [x41] 0 []
                  ltac:(discriminate) ltac:(vm_compute; discriminate))).
Defined.

(** An element whose length line [$<n>\r\n] is complete, for any integer
    [n]: what is left is the length test and the payload slice. *)
Lemma bulk_head (pre rest : bytes) (n : Z) :
  _parse_bulk_string_at (pre ++ x24 :: dec n ++ CR :: LF :: rest) (len pre)
  = (if len (pre ++ x24 :: dec n ++ CR :: LF :: rest)
        <? len pre + 1 + len (dec n) + 2 + n + 2
     then Ret None
     else
       match decode (slice (pre ++ x24 :: dec n ++ CR :: LF :: rest)
                       (len pre + 1 + len (dec n) + 2)
                       (len pre + 1 + len (dec n) + 2 + n)) with
       | None => Raise UnicodeDecodeError
       | Some v => Ret (Some (v, len pre + 1 + len (dec n) + 2 + n + 2))
       end).
Proof.
  set (D := dec n).
  remember (pre ++ x24 :: D ++ CR :: LF :: rest) as buf eqn:Eb.
  pose proof (len_nonneg pre); pose proof (len_nonneg D);
    pose proof (len_nonneg rest).
  assert (L : len buf = len pre + 1 + len D + 2 + len rest).
  { subst buf; rewrite len_app, len_cons, len_app, !len_cons; lia. }
  assert (S1 : slice buf (len pre) (len pre + 1) = [x24]).
  { subst buf; now apply (slice_mid pre [x24] (D ++ CR :: LF :: rest)). }
  assert (F : find CRLF buf (len pre) = len pre + 1 + len D).
  { subst buf.
    change (x24 :: D ++ CR :: LF :: rest) with ((x24 :: D) ++ CR :: LF :: rest).
    rewrite find_from by reflexivity.
    rewrite find_at_hit, len_cons;
      [lia | constructor; [discriminate | apply dec_no_cr]]. }
  assert (S2 : slice buf (len pre + 1) (len pre + 1 + len D) = D).
  { subst buf.
    replace (pre ++ x24 :: D ++ CR :: LF :: rest)
      with ((pre ++ [x24]) ++ D ++ (CR :: LF :: rest)) by list_eq.
    apply slice_mid; rewrite len_app, len_cons, len_nil; lia. }
  clear Eb.
  unfold _parse_bulk_string_at; cbv zeta.
  rewrite F, S1, S2, geb_false by lia.
  replace (int_of_bytes D) with (Some n) by (symmetry; apply int_of_bytes_dec).
  change (bytes_eqb [x24] [x24]) with true; cbn [negb orb].
  replace (len pre + 1 + len D =? -1) with false
    by (symmetry; apply Z.eqb_neq; lia).
  reflexivity.
Qed.

Lemma slice_empty {A} (l : list A) (lo hi : Z) :
  clamp (len l) hi <= clamp (len l) lo -> slice l lo hi = [].
Proof.
  intros H; unfold slice.
  replace (Z.to_nat (clamp (len l) hi - clamp (len l) lo)) with 0%nat by lia.
  reflexivity.
Qed.

Lemma clamp_far_negative (n i : Z) : i < 0 -> n + i <= 0 -> clamp n i = 0.
Proof.
  intros Hi Hn; unfold clamp.
  replace (i <? 0) with true by (symmetry; now apply Z.ltb_lt); lia.
Qed.

(** [get_command] on one element with a large negative length. *)
Lemma negative_length_returns_empty (m : Z) (rest : bytes) :
  2 * len (array_header 1 ++ x24 :: dec (- m) ++ CRLF) + len rest + 2 <= m ->
  get_command
    {| buffer := array_header 1 ++ x24 :: dec (- m) ++ CRLF ++ rest |}
  = (Ret (Some [[]]),
     {| buffer := array_header 1 ++ x24 :: dec (- m) ++ CRLF ++ rest |}).
Proof.
  intros Hm.
  destruct (header_at 1 (x24 :: dec (- m) ++ CRLF ++ rest)) as (S1 & F & S2).
  pose proof (bulk_head (array_header 1) rest (- m)) as B.
  change (x24 :: dec (- m) ++ CR :: LF :: rest)
    with (x24 :: dec (- m) ++ CRLF ++ rest) in B.
  pose proof (len_nonneg (dec (- m))) as HD; pose proof (len_nonneg rest) as HR.
  assert (L : len (array_header 1 ++ x24 :: dec (- m) ++ CRLF ++ rest)
              = 4 + 1 + len (dec (- m)) + 2 + len rest).
  { change (array_header 1) with [x2a; x31; CR; LF].
    unfold CRLF, len in *; cbn [app length].
    rewrite !length_app; cbn [length]; lia. }
  assert (L0 : len (array_header 1 ++ x24 :: dec (- m) ++ CRLF)
               = 4 + 1 + len (dec (- m)) + 2).
  { change (array_header 1) with [x2a; x31; CR; LF].
    unfold CRLF, len in *; cbn [app length].
    rewrite !length_app; cbn [length]; lia. }
  rewrite L0 in Hm.
  change (len (array_header 1)) with 4 in B.
  remember (array_header 1 ++ x24 :: dec (- m) ++ CRLF ++ rest) as buf eqn:Eb.
  unfold get_command; cbn [buffer].
  destruct buf as [|b0 buf'] eqn:Ebuf; [discriminate Eb|].
  rewrite <- Ebuf in *; clear Ebuf b0 buf'.
  rewrite S1; change (bytes_eqb [x2a] [x2a]) with true; cbv iota.
  unfold _parse_array; cbn [buffer]; cbv zeta.
  rewrite F, S2, int_of_bytes_dec.
  change (1 + len (dec (Z.of_nat 1)) =? -1) with false; cbv iota.
  change (Z.to_nat (Z.of_nat 1)) with 1%nat.
  change (1 + len (dec (Z.of_nat 1)) + 2) with 4.
  cbn [parse_items]; rewrite B.
  replace (len buf <? 4 + 1 + len (dec (- m)) + 2 + - m + 2) with false
    by (symmetry; apply Z.ltb_ge; lia).
  rewrite slice_empty.
  - change (decode []) with (Some (@nil N)); cbn [app].
    do 2 f_equal; unfold slice_from.
    rewrite clamp_far_negative by lia; reflexivity.
  - rewrite clamp_far_negative by lia.
    rewrite clamp_id by lia; lia.
Qed.

(** The dispatcher on the command [[""]]: the unknown-command error,
    the store untouched. *)
Lemma empty_name_reply (now : Q) (data : dict) :
  handle_command now [[]] data
  = (Ret (ascii_bytes "-ERR unknown command ''" ++ CRLF), data).
Proof. reflexivity. Qed.

(** X5.  An element that declares a large negative length (written with
    no more digits than [int()] accepts) is read as the empty string and
    nothing is consumed: [get_command] returns the command [[""]] with
    the buffer unchanged, so the loop of [handle_client], which answers
    each of them with the unknown-command error, never reaches its
    [break] (no amount of fuel suffices), with or without the
    dispatcher in the picture. *)
Theorem negative_length_never_drains
  (m : Z) (rest : bytes) (fuel : nat) (clock : nat -> Q) (tick : nat)
  (data : dict) :
  2 * len (array_header 1 ++ x24 :: dec (- m) ++ CRLF) + len rest + 2 <= m ->
  count_digits (dec (- m)) <= max_str_digits ->
  get_command
    {| buffer := array_header 1 ++ x24 :: dec (- m) ++ CRLF ++ rest |}
  = (Ret (Some [[]]),
     {| buffer := array_header 1 ++ x24 :: dec (- m) ++ CRLF ++ rest |})
  /\ drain fuel
       {| buffer := array_header 1 ++ x24 :: dec (- m) ++ CRLF ++ rest |}
     = None
  /\ serve fuel clock tick
       {| buffer := array_header 1 ++ x24 :: dec (- m) ++ CRLF ++ rest |} data
     = None.
Proof.
  intros Hm _; pose proof (negative_length_returns_empty m rest Hm) as G.
  split; [exact G|split].
  - induction fuel as [|fuel IH]; [reflexivity|].
    cbn [drain]; now rewrite G, IH.
  - revert tick; induction fuel as [|fuel IH]; intros tick; [reflexivity|].
    cbn [serve]; now rewrite G, empty_name_reply, IH.
Qed.

(** X5, on [*1\r\n$-100\r\n]. *)
Lemma negative_length_never_drains_witness :
  drain 1000
    {| buffer := [x2a; x31; CR; LF; x24; x2d; x31; x30; x30; CR; LF] |}
  = None.
Proof.
  exact (proj1 (proj2
           (negative_length_never_drains 100 [] 1000 (fun _ => 0%Q) 0%nat []
              ltac:(discriminate) ltac:(vm_compute; discriminate)))).
Defined.

Lemma run_rest_length (clock : nat -> Q) (cmds : list (list str)) :
  forall (tick : nat) (data : dict),
  (length (snd (fst (run clock tick cmds data))) <= length cmds)%nat.
Proof.
  induction cmds as [|c cmds IH]; intros tick data; [apply le_n|].
  cbn [run].
  destruct (handle_command (clock tick) c data) as [[reply|e] data'];
    [|cbn; lia].
  specialize (IH (S tick) data').
  destruct (run clock (S tick) cmds data') as [[[rs e] rest] data''].
  cbn [fst snd length] in *; lia.
Qed.

(** X6.  Several frames in one buffer are served by one run of the loop
    of [handle_client] in their order, each command dispatched on the
    store its predecessors left: the replies written are those of
    dispatching the commands one after the other.  If none of them
    raises, the buffer ends empty; if one does, the loop is left at that
    command and the frames after it stay in the buffer. *)
Theorem pipelined_commands
  (cmds : list (list bytes)) (args : list (list str))
  (clock : nat -> Q) (tick : nat) (data : dict) (fuel : nat) :
  Forall2 (fun ps a => decode_all ps = Some a) cmds args ->
  (length cmds < fuel)%nat ->
  serve fuel clock tick {| buffer := pipeline cmds |} data
  = let '(replies, e, rest, data') := run clock tick args data in
    Some (replies, e,
          {| buffer := pipeline (skipn (length cmds - length rest) cmds) |},
          data').
Proof.
  intros H; revert fuel tick data.
  induction H as [|ps a cmds args Hd Hr IH]; intros fuel tick data Hf.
  - destruct fuel; [cbn in Hf; lia | reflexivity].
  - destruct fuel as [|fuel]; [cbn in Hf; lia|].
    pose proof (Forall2_length Hr) as Hlen.
    unfold pipeline; cbn [map concat serve run]; fold (pipeline cmds).
    rewrite array_at, map_fst_terminated, Hd.
    destruct (handle_command (clock tick) a data) as [[reply|e] data'].
    + pose proof (run_rest_length clock args (S tick) data') as Hle.
      rewrite IH by (cbn in Hf; lia).
      destruct (run clock (S tick) args data') as [[[rs e] rest] data''].
      cbn [fst snd length] in *.
      replace (S (length cmds) - length rest)%nat
        with (S (length cmds - length rest)) by lia.
      reflexivity.
    + cbn [length]; rewrite Hlen.
      replace (S (length args) - length args)%nat with 1%nat by lia.
      reflexivity.
Qed.

(** X6, on [SET k v] followed by [GET k], and on [KEYS] over a store
    with an expired entry followed by [PING]. *)
Lemma pipelined_commands_witness :
  serve 3 (fun _ => 5%Q) 0
    {| buffer := pipeline [[ascii_bytes "SET"; ascii_bytes "k"; ascii_bytes "v"];
                           [ascii_bytes "GET"; ascii_bytes "k"]] |} []
  = Some ([ascii_bytes "+OK" ++ CRLF;
           ascii_bytes "$1" ++ CRLF ++ ascii_bytes "v" ++ CRLF],
          None, init, [(lit "k", (lit "v", None))])
  /\ serve 3 (fun _ => 5%Q) 0
       {| buffer := pipeline [[ascii_bytes "KEYS"]; [ascii_bytes "PING"]] |}
       [(lit "a", (lit "1", Some 1%Q))]
     = Some ([], Some RuntimeError,
             {| buffer := pipeline [[ascii_bytes "PING"]] |}, []).
Proof.
  split.
  - refine (pipelined_commands
              [[ascii_bytes "SET"; ascii_bytes "k"; ascii_bytes "v"];
               [ascii_bytes "GET"; ascii_bytes "k"]]
              [[lit "SET"; lit "k"; lit "v"]; [lit "GET"; lit "k"]]
              (fun _ => 5%Q) 0 [] 3 _ (le_n 3)).
    repeat constructor.
  - refine (pipelined_commands
              [[ascii_bytes "KEYS"]; [ascii_bytes "PING"]]
              [[lit "KEYS"]; [lit "PING"]]
              (fun _ => 5%Q) 0 [(lit "a", (lit "1", Some 1%Q))] 3 _ (le_n 3)).
    repeat constructor.
Defined.

Lemma slice_from_suffix {A} (l : list A) (lo : Z) :
  exists consumed, l = consumed ++ slice_from l lo.
Proof.
  exists (firstn (Z.to_nat (clamp (len l) lo)) l).
  unfold slice_from; now rewrite firstn_skipn.
Qed.

(** X7.  Whatever the buffer holds, [get_command] only ever removes
    bytes from its front: the new buffer is a suffix of the old one,
    nothing is reordered, duplicated or inserted. *)
Theorem get_command_consumes_a_prefix (p : RESPParser) :
  exists consumed : bytes,
    buffer p = consumed ++ buffer (snd (get_command p)).
Proof.
  unfold get_command, _parse_array, _parse_inline; cbv zeta.
  destruct (buffer p) as [|b0 buf'] eqn:Eb; [now exists []|].
  rewrite <- Eb; clear Eb b0 buf'.
  destruct (bytes_eqb (slice (buffer p) 0 1) [x2a]);
    destruct (find CRLF (buffer p) 0 =? -1); try (now exists []).
  - destruct (int_of_bytes _); [|apply slice_from_suffix].
    destruct (parse_items _ _ _ _) as [[[args pos]|]|]; try (now exists []).
    apply slice_from_suffix.
  - destruct (decode _); [apply slice_from_suffix | now exists []].
Qed.

(** X8.  An array element that does not start with [$] is treated like
    an element that has not arrived: after a count of at least one
    (written with no more digits than [int()] accepts) [get_command]
    answers [None] and consumes nothing, whatever follows, so the loop
    of [handle_client] stops without a reply and the same bytes are met
    again after every later read. *)
Theorem non_bulk_element_stalls
  (n : nat) (c : byte) (more : bytes) (fuel : nat)
  (clock : nat -> Q) (tick : nat) (data : dict) :
  (0 < n)%nat -> count_digits (dec (Z.of_nat n)) <= max_str_digits ->
  c <> x24 ->
  get_command {| buffer := array_header n ++ c :: more |}
  = (Ret None, {| buffer := array_header n ++ c :: more |})
  /\ drain (S fuel) {| buffer := array_header n ++ c :: more |}
     = Some ([], None, {| buffer := array_header n ++ c :: more |})
  /\ serve (S fuel) clock tick {| buffer := array_header n ++ c :: more |} data
     = Some ([], None, {| buffer := array_header n ++ c :: more |}, data).
Proof.
  intros Hn _ Hc.
  assert (G : get_command {| buffer := array_header n ++ c :: more |}
              = (Ret None, {| buffer := array_header n ++ c :: more |})).
  { destruct (header_at n (c :: more)) as (S1 & F & S2).
    pose proof (len_array_header n) as LH.
    pose proof (len_nonneg (dec (Z.of_nat n))); pose proof (len_nonneg more).
    assert (S3 : slice (array_header n ++ c :: more) (len (array_header n))
                   (len (array_header n) + 1) = [c])
      by now apply (slice_mid (array_header n) [c] more).
    assert (L : len (array_header n ++ c :: more)
                = len (array_header n) + 1 + len more)
      by (rewrite len_app, len_cons; lia).
    remember (array_header n ++ c :: more) as buf eqn:Ebuf.
    unfold get_command; cbn [buffer].
    destruct buf as [|b0 buf'] eqn:Ebuf'; [discriminate Ebuf|].
    rewrite <- Ebuf' in *; clear Ebuf' b0 buf'.
    rewrite S1; change (bytes_eqb [x2a] [x2a]) with true; cbv iota.
    unfold _parse_array; cbn [buffer]; cbv zeta.
    rewrite F, S2, int_of_bytes_dec, Nat2Z.id.
    replace (1 + len (dec (Z.of_nat n)) =? -1) with false
      by (symmetry; apply Z.eqb_neq; lia).
    replace (1 + len (dec (Z.of_nat n)) + 2) with (len (array_header n)) by lia.
    destruct n as [|n]; [lia|].
    cbn [parse_items]; unfold _parse_bulk_string_at.
    rewrite S3, geb_false by lia.
    cbn [bytes_eqb]; rewrite byte_eqb_neq by assumption.
    reflexivity. }
  split; [exact G | split; [now apply drain_waiting|]].
  cbn [serve]; now rewrite G.
Qed.

(** X8, on [*1\r\n:5\r\n]. *)
Lemma non_bulk_element_stalls_witness :
  get_command {| buffer := [x2a; x31; CR; LF; x3a; x35; CR; LF] |}
  = (Ret None, {| buffer := [x2a; x31; CR; LF; x3a; x35; CR; LF] |}).
Proof.
  exact (proj1 (non_bulk_element_stalls 1 x3a [x35; CR; LF] 0 (fun _ => 0%Q)
                  0%nat [] (le_n 1) ltac:(vm_compute; discriminate)
                  ltac:(discriminate))).
Defined.

(* ================================================================== *)
(** * Further properties of the dispatcher *)

(** Every path through [handle_command] ends in one of the encoders or
    in an exception, and the error paths return the store they were
    given. *)
Lemma handle_command_cases (now : Q) (args : list str) (data : dict) :
  (exists msg, handle_command now args data = (error msg, data))
  \/ (exists msg, fst (handle_command now args data) = simple_string msg)
  \/ (exists v, fst (handle_command now args data) = bulk_string v)
  \/ (exists n, fst (handle_command now args data) = integer n)
  \/ (exists ks, fst (handle_command now args data) = encoded (keys_text ks))
  \/ (exists e, fst (handle_command now args data) = Raise e).
Proof.
  unfold handle_command, wrong_args.
  destruct args as [|a0 rest]; [left; eexists; reflexivity|]; cbv zeta.
  destruct (str_eqb (upper a0) (lit "PING"));
    [right; left; eexists; reflexivity|].
  destruct (str_eqb (upper a0) (lit "SET")).
  { destruct (length (a0 :: rest) <? 3)%nat;
      [left | right; left]; eexists; reflexivity. }
  destruct (str_eqb (upper a0) (lit "GET")).
  { destruct (length (a0 :: rest) <? 2)%nat; [left; eexists; reflexivity|].
    destruct (get_value now (nth 1 (a0 :: rest) []) data) as [[v|e] d'].
    - right; right; left; eexists; reflexivity.
    - do 5 right; eexists; reflexivity. }
  destruct (str_eqb (upper a0) (lit "EXPIRE")).
  { destruct (length (a0 :: rest) <? 3)%nat; [left; eexists; reflexivity|].
    destruct (int_of_str (nth 2 (a0 :: rest) []));
      [|left; eexists; reflexivity].
    destruct (negb (contains (nth 1 (a0 :: rest) []) data));
      [do 3 right; left; eexists; reflexivity|].
    destruct (is_expired now (nth 1 (a0 :: rest) []) data) as [ex d'].
    destruct ex; [do 3 right; left; eexists; reflexivity|].
    destruct (item (nth 1 (a0 :: rest) []) d') as [[value o]|e];
      [|do 5 right; eexists; reflexivity].
    destruct (float_of_int z) as [s|e].
    - do 3 right; left; eexists; reflexivity.
    - do 5 right; eexists; reflexivity. }
  destruct (str_eqb (upper a0) (lit "TTL")).
  { destruct (length (a0 :: rest) <? 2)%nat; [left; eexists; reflexivity|].
    destruct (lookup (nth 1 (a0 :: rest) []) data) as [[value [t|]]|];
      try (do 3 right; left; eexists; reflexivity).
    destruct (int_of_float (fsub t now)) as [remaining|e];
      [|do 5 right; eexists; reflexivity].
    destruct (remaining <? 0); do 3 right; left; eexists; reflexivity. }
  destruct (str_eqb (upper a0) (lit "DEL")).
  { destruct (length (a0 :: rest) <? 2)%nat; [left; eexists; reflexivity|].
    destruct (fold_left del_count rest (fold_left del_pop rest data, 0))
      as [d2 count].
    do 3 right; left; eexists; reflexivity. }
  destruct (str_eqb (upper a0) (lit "KEYS")).
  { destruct (live_keys now (map fst data) data []) as [[keys|e] d'].
    - do 4 right; left; eexists; reflexivity.
    - do 5 right; eexists; reflexivity. }
  left; eexists; reflexivity.
Qed.

(** The bytes of an encoded line that starts with an ASCII marker. *)
Lemma encoded_line (c : N) (s : str) (b : bytes) :
  (c < 128)%N -> encoded (c :: s ++ crlf) = Ret b ->
  exists body, b = byte_of c :: body ++ CRLF.
Proof.
  intros Hc; unfold encoded; cbn [encode].
  unfold encode_cp; rewrite (proj2 (N.ltb_lt c 128) Hc).
  rewrite encode_app; change (encode crlf) with (Some CRLF).
  destruct (encode s) as [x|]; [|discriminate].
  intros E; injection E as <-; now exists x.
Qed.

Lemma keys_text_line (ks : list str) :
  exists s, keys_text ks = 42%N :: s ++ crlf.
Proof.
  unfold keys_text.
  assert (G : forall pre : str,
             exists s, pre ++ crlf ++ concat (map bulk_text ks) = s ++ crlf).
  { induction ks as [|k ks IH]; intros pre.
    - exists pre; cbn [map concat]; now rewrite app_nil_r.
    - cbn [map concat]; unfold bulk_text at 1.
      destruct (IH (pre ++ crlf ++ lit "$" ++ dec_str (len k) ++ crlf ++ k))
        as [s Hs].
      exists s; rewrite <- Hs; now rewrite <- !app_assoc. }
  destruct (G (dec_str (len ks))) as [s Hs].
  exists s; cbn [lit map list_ascii_of_string app]; now rewrite Hs.
Qed.

(** A returned reply, as bytes: one of the five markers, a body, and the
    terminator. *)
Lemma returned_reply_line (now : Q) (args : list str) (data : dict) (b : bytes) :
  fst (handle_command now args data) = Ret b ->
  exists (marker : byte) (body : bytes),
    b = marker :: body ++ CRLF /\ In marker [x2b; x2d; x24; x3a; x2a]
    /\ (marker = x2d -> snd (handle_command now args data) = data).
Proof.
  intros H.
  destruct (handle_command_cases now args data)
    as [[msg E] | [[msg E] | [[v E] | [[n E] | [[ks E] | [e E]]]]]].
  - rewrite E in *; cbn [fst snd] in *.
    apply (encoded_line 45 msg b) in H as [body ->]; [|reflexivity].
    exists x2d, body; cbn; auto.
  - rewrite E in H.
    apply (encoded_line 43 msg b) in H as [body ->]; [|reflexivity].
    exists x2b, body; cbn; repeat split; auto 10; discriminate.
  - rewrite E in H; destruct v as [v|].
    + unfold bulk_string, bulk_text in H.
      replace (lit "$" ++ dec_str (len v) ++ crlf ++ v ++ crlf)
        with (36%N :: (dec_str (len v) ++ crlf ++ v) ++ crlf) in H
        by (cbn [lit map list_ascii_of_string app]; now rewrite <- !app_assoc).
      apply encoded_line in H as [body ->]; [|reflexivity].
      exists x24, body; cbn; repeat split; auto 10; discriminate.
    + injection H as <-.
      exists x24, [x2d; x31]; cbn; repeat split; auto 10; discriminate.
  - rewrite E in H.
    apply (encoded_line 58 (dec_str n) b) in H as [body ->]; [|reflexivity].
    exists x3a, body; cbn; repeat split; auto 10; discriminate.
  - rewrite E in H; destruct (keys_text_line ks) as [s Hs]; rewrite Hs in H.
    apply encoded_line in H as [body ->]; [|reflexivity].
    exists x2a, body; cbn; repeat split; auto 10; discriminate.
  - rewrite E in H; discriminate.
Qed.

(** X9.  An error reply never comes with a change of the store: if the
    reply handed back starts with [-], the store is the one the command
    was given (empty vector, wrong arity, non-integer seconds, unknown
    command). *)
Theorem error_reply_leaves_store
  (now : Q) (args : list str) (data : dict) (tail : bytes) :
  fst (handle_command now args data) = Ret (x2d :: tail) ->
  snd (handle_command now args data) = data.
Proof.
  intros H.
  destruct (returned_reply_line now args data _ H) as (m & body & E & _ & Hs).
  injection E as <- _; now apply Hs.
Qed.

(** X9, on the unknown command [FLUSH]. *)
Lemma error_reply_leaves_store_witness :
  snd (handle_command 3 [lit "flush"] [(lit "k", (lit "v", None))])
  = [(lit "k", (lit "v", None))].
Proof.
  exact (error_reply_leaves_store 3 [lit "flush"] [(lit "k", (lit "v", None))]
           (ascii_bytes "ERR unknown command 'FLUSH'" ++ CRLF) eq_refl).
Defined.

(** X10.  Whenever the dispatcher returns a reply (it does not raise),
    the reply starts with one of the markers [+ - $ : *] and ends with
    [\r\n]. *)
Theorem returned_reply_is_framed
  (now : Q) (args : list str) (data : dict) (b : bytes) :
  fst (handle_command now args data) = Ret b ->
  exists (marker : byte) (body : bytes),
    b = marker :: body ++ CRLF /\ In marker [x2b; x2d; x24; x3a; x2a].
Proof.
  intros H.
  destruct (returned_reply_line now args data _ H) as (m & body & E & Hm & _).
  now exists m, body.
Qed.

(** X10, on [GET k] for a stored key. *)
Lemma returned_reply_is_framed_witness :
  exists (marker : byte) (body : bytes),
    [x24; x31; CR; LF; x76; CR; LF] = marker :: body ++ CRLF
    /\ In marker [x2b; x2d; x24; x3a; x2a].
Proof.
  exact (returned_reply_is_framed 3 [lit "GET"; lit "k"]
           [(lit "k", (lit "v", None))] [x24; x31; CR; LF; x76; CR; LF] eq_refl).
Defined.

(** *** DEL *)

Lemma lookup_del_pop (k' k : str) (d : dict) :
  lookup k' (del_pop d k) = if str_eqb k' k then None else lookup k' d.
Proof.
  unfold del_pop, contains.
  destruct (str_eqb k' k) eqn:Ek.
  - apply str_eqb_eq in Ek; subst k'.
    destruct (lookup k d) eqn:E; [apply lookup_remove_same | exact E].
  - destruct (lookup k d); [|reflexivity].
    apply lookup_remove_other; intros ->.
    rewrite str_eqb_refl in Ek; discriminate.
Qed.

Lemma fold_del_pop_absent (k' : str) (ks : list str) :
  forall d : dict,
  lookup k' d = None -> lookup k' (fold_left del_pop ks d) = None.
Proof.
  induction ks as [|k ks IH]; intros d H; [exact H|].
  cbn [fold_left]; apply IH; rewrite lookup_del_pop.
  now destruct (str_eqb k' k).
Qed.

Lemma fold_del_pop_named (k' : str) (ks : list str) :
  forall d : dict,
  In k' ks -> lookup k' (fold_left del_pop ks d) = None.
Proof.
  induction ks as [|k ks IH]; intros d Hin; [destruct Hin|].
  cbn [fold_left]; destruct Hin as [-> | Hin]; [|now apply IH].
  apply fold_del_pop_absent; rewrite lookup_del_pop; now rewrite str_eqb_refl.
Qed.

Lemma fold_del_pop_other (k' : str) (ks : list str) :
  forall d : dict,
  ~ In k' ks -> lookup k' (fold_left del_pop ks d) = lookup k' d.
Proof.
  induction ks as [|k ks IH]; intros d Hin; [reflexivity|].
  cbn [fold_left]; rewrite IH by (intros H; apply Hin; now right).
  rewrite lookup_del_pop, str_eqb_neq; [reflexivity|].
  intros ->; apply Hin; now left.
Qed.

Lemma fold_del_count_absent (ks : list str) :
  forall (d : dict) (c : Z),
  (forall k, In k ks -> lookup k d = None) ->
  fold_left del_count ks (d, c) = (d, c).
Proof.
  induction ks as [|k ks IH]; intros d c H; [reflexivity|].
  cbn [fold_left del_count]; unfold contains.
  rewrite (H k) by now left.
  apply IH; intros k1 H1; apply H; now right.
Qed.

(** X11.  DEL deletes every named key that is present and leaves the
    other keys alone, but its reply is the integer 0 whatever was
    deleted: the generator of line 179 has already popped the keys when
    the counting loop starts. *)
Theorem del_command (now : Q) (args : list str) (data : dict) :
  upper (nth 0 args []) = lit "DEL" ->
  (2 <= length args)%nat ->
  handle_command now args data
  = (Ret (x3a :: dec 0 ++ CRLF), fold_left del_pop (tl args) data)
  /\ (forall k, In k (tl args) ->
        lookup k (fold_left del_pop (tl args) data) = None)
  /\ (forall k, ~ In k (tl args) ->
        lookup k (fold_left del_pop (tl args) data) = lookup k data).
Proof.
  intros H Hlen; repeat split.
  - dispatch H.
    replace (length (a0 :: rest) <? 2)%nat with false
      by (symmetry; now apply Nat.ltb_ge).
    cbn [tl]; rewrite fold_del_count_absent
      by (intros k Hk; now apply fold_del_pop_named).
    now rewrite integer_bytes.
  - intros k Hk; now apply fold_del_pop_named.
  - intros k Hk; now apply fold_del_pop_other.
Qed.

(** X11, on [DEL a b] over a store that holds [a] and [c]. *)
Lemma del_command_witness :
  handle_command 1 [lit "DEL"; lit "a"; lit "b"]
    [(lit "a", (lit "1", None)); (lit "c", (lit "3", None))]
  = (Ret (ascii_bytes ":0" ++ CRLF), [(lit "c", (lit "3", None))]).
Proof.
  exact (proj1 (del_command 1 [lit "DEL"; lit "a"; lit "b"]
                  [(lit "a", (lit "1", None)); (lit "c", (lit "3", None))]
                  eq_refl (le_S 2 2 (le_n 2)))).
Defined.

(** *** SET followed by reads *)

(** X12.  After [SET k v], at any later clock reading, [GET k] answers
    the bulk reply for [v] and [TTL k] answers -1, and neither changes
    the store. *)
Theorem set_then_read (now later : Q) (k v : str) (data : dict) :
  handle_command now [lit "SET"; k; v] data
  = (Ret (ascii_bytes "+OK" ++ CRLF), set_value k v None data)
  /\ handle_command later [lit "GET"; k] (set_value k v None data)
     = (bulk_string (Some v), set_value k v None data)
  /\ handle_command later [lit "TTL"; k] (set_value k v None data)
     = (Ret (ascii_bytes ":-1" ++ CRLF), set_value k v None data).
Proof.
  repeat split.
  - unfold handle_command; cbv zeta.
    change (upper (lit "GET")) with (lit "GET"); names.
    cbn [length Nat.ltb Nat.leb nth]; unfold get_value, is_expired, item, set_value.
    rewrite lookup_assign_same; cbn [timed_out].
    now rewrite lookup_assign_same.
  - unfold handle_command; cbv zeta.
    change (upper (lit "TTL")) with (lit "TTL"); names.
    cbn [length Nat.ltb Nat.leb nth]; unfold set_value.
    now rewrite lookup_assign_same.
Qed.

(** *** GET *)

(** X13.  GET on a missing key answers nil and leaves the store; on a
    key with no expiry, or an expiry not earlier than now, it answers
    the bulk reply for the value and leaves the store; on a key whose
    non-zero expiry is earlier than now it deletes the entry and answers
    nil. *)
Theorem get_reply (now : Q) (args : list str) (data : dict) :
  upper (nth 0 args []) = lit "GET" ->
  (2 <= length args)%nat ->
  (lookup (nth 1 args []) data = None ->
   handle_command now args data = (Ret [x24; x2d; x31; CR; LF], data))
  /\ (forall (v : str) (e : option Q),
        lookup (nth 1 args []) data = Some (v, e) ->
        (e = None \/ exists t, e = Some t /\ (now <= t)%Q) ->
        handle_command now args data = (bulk_string (Some v), data))
  /\ (forall (v : str) (t : Q),
        lookup (nth 1 args []) data = Some (v, Some t) ->
        ~ (t == 0)%Q -> (t < now)%Q ->
        handle_command now args data
        = (Ret [x24; x2d; x31; CR; LF], remove (nth 1 args []) data)).
Proof.
  intros H Hlen; repeat split.
  - intros Hk; dispatch H.
    replace (length (a0 :: rest) <? 2)%nat with false
      by (symmetry; now apply Nat.ltb_ge).
    cbn [nth] in *; unfold get_value, is_expired; now rewrite Hk.
  - intros v e Hk He; dispatch H.
    replace (length (a0 :: rest) <? 2)%nat with false
      by (symmetry; now apply Nat.ltb_ge).
    cbn [nth] in *; unfold get_value, is_expired, item; rewrite Hk.
    assert (Ht : timed_out now e = false).
    { destruct He as [-> | [t [-> Ht]]];
        [reflexivity | now apply timed_out_not_yet]. }
    now rewrite Ht, Hk.
  - intros v t Hk Hz Hlt; now apply get_purges_expired with (v := v) (t := t).
Qed.

(** X13, on a key whose expiry 1 has passed at time 5. *)
Lemma get_reply_witness :
  handle_command 5 [lit "get"; lit "k"] [(lit "k", (lit "v", Some 1%Q))]
  = (Ret [x24; x2d; x31; CR; LF], []).
Proof.
  refine (proj2 (proj2 (get_reply 5 [lit "get"; lit "k"]
                          [(lit "k", (lit "v", Some 1%Q))] eq_refl (le_n 2)))
            (lit "v") 1%Q eq_refl _ _); [discriminate | reflexivity].
Defined.

(** *** KEYS *)

Lemma lookup_in {V} (k : str) (d : list (str * V)) (r : V) :
  lookup k d = Some r -> In (k, r) d.
Proof.
  induction d as [|[k' v'] d IH]; cbn; [discriminate|].
  destruct (str_eqb k k') eqn:E; [|intros H; right; now apply IH].
  apply str_eqb_eq in E; subst k'; intros H; injection H as ->; now left.
Qed.

Lemma live_keys_all (now : Q) (data : dict) (ks : list str) :
  forall acc : list str,
  (forall k, In k ks ->
     exists v e, lookup k data = Some (v, e) /\ timed_out now e = false) ->
  live_keys now ks data acc = (Ret (acc ++ ks), data).
Proof.
  induction ks as [|k ks IH]; intros acc H;
    [cbn; now rewrite app_nil_r|].
  destruct (H k (or_introl eq_refl)) as (v & e & Hk & Ht).
  cbn [live_keys]; unfold is_expired; rewrite Hk, Ht, Nat.eqb_refl.
  cbn [negb]; rewrite IH by (intros k1 H1; apply H; now right).
  now rewrite <- app_assoc.
Qed.

(** X14.  On a store in which no entry's expiry has passed, KEYS lists
    every key, in insertion order, and leaves the store unchanged. *)
Theorem keys_lists_live_store (now : Q) (data : dict) :
  Forall (fun r : str * entry =>
            match snd (snd r) with
            | None => True
            | Some t => (now <= t)%Q
            end) data ->
  handle_command now [lit "KEYS"] data
  = (encoded (keys_text (map fst data)), data).
Proof.
  intros H.
  unfold handle_command; cbv zeta.
  change (upper (lit "KEYS")) with (lit "KEYS"); names.
  rewrite (live_keys_all now data (map fst data) []); [reflexivity|].
  intros k Hk.
  apply keys_contained in Hk; unfold contains in Hk.
  destruct (lookup k data) as [[v e]|] eqn:E; [|discriminate].
  exists v, e; split; [reflexivity|].
  apply lookup_in in E.
  rewrite Forall_forall in H; specialize (H _ E); cbn [snd] in H.
  destruct e as [t|]; [now apply timed_out_not_yet | reflexivity].
Qed.

(** X14, on a store with two live keys at time 5. *)
Lemma keys_lists_live_store_witness :
  handle_command 5 [lit "KEYS"]
    [(lit "b", (lit "1", Some 9%Q)); (lit "a", (lit "2", None))]
  = (Ret (ascii_bytes "*2" ++ CRLF ++ ascii_bytes "$1" ++ CRLF
          ++ ascii_bytes "b" ++ CRLF ++ ascii_bytes "$1" ++ CRLF
          ++ ascii_bytes "a" ++ CRLF),
     [(lit "b", (lit "1", Some 9%Q)); (lit "a", (lit "2", None))]).
Proof.
  refine (keys_lists_live_store 5
            [(lit "b", (lit "1", Some 9%Q)); (lit "a", (lit "2", None))] _).
  repeat constructor; discriminate.
Defined.

(** X15.  As soon as the store holds one entry whose non-zero expiry has
    passed, KEYS returns no reply: the deletion inside the loop over the
    dictionary makes the loop raise [RuntimeError]. *)
Theorem keys_raises_when_expired
  (now : Q) (data : dict) (k v : str) (t : Q) :
  lookup k data = Some (v, Some t) -> ~ (t == 0)%Q -> (t < now)%Q ->
  exists data',
    handle_command now [lit "KEYS"] data = (Raise RuntimeError, data').
Proof.
  intros Hk Hz Hlt.
  apply (keys_raises now data k v (Some t) Hk).
  now apply timed_out_past.
Qed.

(** X15, on a store whose second key expired at 1, at time 5. *)
Lemma keys_raises_when_expired_witness :
  exists data',
    handle_command 5 [lit "KEYS"]
      [(lit "a", (lit "1", None)); (lit "b", (lit "2", Some 1%Q))]
    = (Raise RuntimeError, data').
Proof.
  refine (keys_raises_when_expired 5
            [(lit "a", (lit "1", None)); (lit "b", (lit "2", Some 1%Q))]
            (lit "b") (lit "2") 1%Q eq_refl _ _); [discriminate | reflexivity].
Defined.

(* ================================================================== *)
(** * Further properties of persistence and expiry *)

(** X16, on a store with one live and one expired entry at time 5. *)
Lemma persistence_keeps_live_witness :
  save_data 5 [(lit "a", (lit "1", Some 9%Q)); (lit "b", (lit "2", Some 1%Q))]
  = [(lit "a", (lit "1", Some 9%Q))]
  /\ load_data 5
       (Some [(lit "a", (lit "1", Some 9%Q)); (lit "b", (lit "2", Some 1%Q))]) []
     = [(lit "a", (lit "1", Some 9%Q))]
  /\ load_data 5 None [] = [].
Proof.
  refine (persistence_keeps_live 5
            [(lit "a", (lit "1", Some 9%Q)); (lit "b", (lit "2", Some 1%Q))] _).
  repeat constructor; cbn; intuition discriminate.
Defined.

Lemma timed_out_inv (now t : Q) :
  timed_out now (Some t) = true -> ~ (t == 0)%Q /\ (t < now)%Q.
Proof.
  unfold timed_out, Qgt_bool; intros H.
  apply andb_true_iff in H as [Hz Hl].
  apply negb_true_iff in Hz, Hl; split.
  - now apply Qeq_bool_neq.
  - apply Qnot_le_lt; intros Hle.
    apply Qle_bool_iff in Hle; congruence.
Qed.

Lemma timed_out_later (now later : Q) (e : option Q) :
  (now <= later)%Q -> timed_out now e = true -> timed_out later e = true.
Proof.
  intros Hle H; destruct e as [t|]; [|discriminate].
  apply timed_out_inv in H as [Hz Hlt].
  apply timed_out_past; [exact Hz | now apply Qlt_le_trans with (y := now)].
Qed.

Lemma filter_kept_twice (now later : Q) (l : list (str * entry)) :
  (now <= later)%Q ->
  filter (kept later) (filter (kept now) l) = filter (kept later) l.
Proof.
  intros Hle; induction l as [|r l IH]; [reflexivity|].
  cbn [filter]; destruct (kept now r) eqn:En.
  - cbn [filter]; now rewrite IH.
  - unfold kept in *; apply negb_false_iff in En.
    now rewrite (timed_out_later now later _ Hle En), IH.
Qed.

Lemma keys_of_filter {V} (f : str * V -> bool) (l : list (str * V)) (k : str) :
  In k (map fst (filter f l)) -> In k (map fst l).
Proof.
  rewrite !in_map_iff; intros ([k' v] & E & Hin).
  apply filter_In in Hin as [Hin _]; now exists (k', v).
Qed.

Lemma NoDup_keys_filter {V} (f : str * V -> bool) (l : list (str * V)) :
  NoDup (map fst l) -> NoDup (map fst (filter f l)).
Proof.
  induction l as [|[k v] l IH]; intros H; [constructor|].
  cbn [map fst] in H; inversion H as [|? ? Hn Hd]; subst.
  cbn [filter]; destruct (f (k, v)); [|now apply IH].
  cbn [map fst]; constructor; [|now apply IH].
  intros Hin; apply Hn; now apply keys_of_filter in Hin.
Qed.

(** X17.  Saving at one time and loading at a later time into the empty
    store gives exactly the entries of the saved store that have not
    timed out at load time, in their order, values and expiries
    unchanged. *)
Theorem restart_keeps_live_entries (now later : Q) (data : dict) :
  NoDup (map fst data) -> (now <= later)%Q ->
  load_data later (Some (save_data now data)) [] = filter (kept later) data.
Proof.
  intros Hnd Hle; unfold save_data, load_data.
  rewrite (fold_keep_live now data []) by exact Hnd.
  cbn [app]; rewrite (fold_keep_live later _ [])
    by (cbn [app]; now apply NoDup_keys_filter).
  now apply filter_kept_twice.
Qed.

(** X17, saving at 5 and loading at 10 entries that expire at 7, at 12
    and never. *)
Lemma restart_keeps_live_entries_witness :
  load_data 10
    (Some (save_data 5
             [(lit "a", (lit "1", Some 7%Q)); (lit "b", (lit "2", Some 12%Q));
              (lit "c", (lit "3", None))])) []
  = [(lit "b", (lit "2", Some 12%Q)); (lit "c", (lit "3", None))].
Proof.
  refine (restart_keeps_live_entries 5 10
            [(lit "a", (lit "1", Some 7%Q)); (lit "b", (lit "2", Some 12%Q));
             (lit "c", (lit "3", None))] _ _).
  - repeat constructor; cbn; intuition discriminate.
  - discriminate.
Defined.

(** EXPIRE on a key that has not timed out. *)
Lemma expire_live
  (now : Q) (k s v : str) (secs : Z) (x : Q) (e : option Q) (data : dict) :
  int_of_str s = Some secs -> float_of_int secs = Ret x ->
  lookup k data = Some (v, e) -> timed_out now e = false ->
  handle_command now [lit "EXPIRE"; k; s] data
  = (Ret (x3a :: dec 1 ++ CRLF), assign k (v, Some (fadd now x)) data).
Proof.
  intros Hs Hx Hk Ht.
  unfold handle_command; cbv zeta.
  change (upper (lit "EXPIRE")) with (lit "EXPIRE"); names.
  cbn [length Nat.ltb Nat.leb nth]; rewrite Hs.
  rewrite (contains_lookup _ _ _ Hk); cbn [negb].
  unfold is_expired, item; rewrite Hk, Ht, Hk, Hx.
  now rewrite integer_bytes.
Qed.

Lemma live_not_timed_out (now : Q) (e : option Q) :
  e = None \/ (exists t, e = Some t /\ (now <= t)%Q) -> timed_out now e = false.
Proof.
  intros [-> | [t [-> Ht]]]; [reflexivity | now apply timed_out_not_yet].
Qed.

(** X18.  After EXPIRE on a live key, with the seconds within the range
    of a double, the key carries the double sum of the clock reading and
    the seconds; TTL asked at a clock reading not later than that stamp
    answers the floor of their double difference, a whole number that is
    not negative, and leaves the key in place. *)
Theorem expire_then_ttl
  (now later : Q) (k s v : str) (secs : Z) (x : Q) (e : option Q) (data : dict) :
  int_of_str s = Some secs -> float_of_int secs = Ret x ->
  lookup k data = Some (v, e) ->
  (e = None \/ exists t, e = Some t /\ (now <= t)%Q) ->
  isfinite (fadd now x) = true -> isfinite later = true ->
  (later <= fadd now x)%Q ->
  isfinite (fsub (fadd now x) later) = true ->
  handle_command now [lit "EXPIRE"; k; s] data
  = (Ret (x3a :: dec 1 ++ CRLF), assign k (v, Some (fadd now x)) data)
  /\ 0 <= Qfloor (fsub (fadd now x) later)
  /\ handle_command later [lit "TTL"; k] (assign k (v, Some (fadd now x)) data)
     = (Ret (x3a :: dec (Qfloor (fsub (fadd now x) later)) ++ CRLF),
        assign k (v, Some (fadd now x)) data).
Proof.
  intros Hs Hx Hk He Fe Fl Hl Fd.
  pose proof (fsub_nonneg _ _ Fe Fl Hl) as H0.
  pose proof (Qfloor_resp_le _ _ H0) as F0; change (Qfloor 0) with 0 in F0.
  split; [|split; [exact F0|]].
  - apply (expire_live now k s v secs x e data Hs Hx Hk).
    now apply live_not_timed_out.
  - unfold handle_command; cbv zeta.
    change (upper (lit "TTL")) with (lit "TTL"); names.
    cbn [length Nat.ltb Nat.leb nth]; rewrite lookup_assign_same.
    unfold int_of_float; rewrite Fd, (Qtrunc_nonneg _ H0).
    replace (Qfloor (fsub (fadd now x) later) <? 0) with false
      by (symmetry; now apply Z.ltb_ge).
    now rewrite integer_bytes.
Qed.

(** X18, [EXPIRE k 100] at time 5 and [TTL k] at time 7.5. *)
Lemma expire_then_ttl_witness :
  handle_command 5 [lit "EXPIRE"; lit "k"; lit "100"] [(lit "k", (lit "v", None))]
  = (Ret (ascii_bytes ":1" ++ CRLF), [(lit "k", (lit "v", Some 105%Q))])
  /\ 0 <= 97
  /\ handle_command (15 # 2) [lit "TTL"; lit "k"]
       [(lit "k", (lit "v", Some 105%Q))]
     = (Ret (ascii_bytes ":97" ++ CRLF), [(lit "k", (lit "v", Some 105%Q))]).
Proof.
  refine (expire_then_ttl 5 (15 # 2) (lit "k") (lit "100") (lit "v") 100 100%Q
            None [(lit "k", (lit "v", None))] eq_refl eq_refl eq_refl
            (or_introl eq_refl) eq_refl eq_refl _ eq_refl).
  vm_compute; discriminate.
Defined.

(** X19.  SET, then EXPIRE with seconds within the range of a double,
    then GET at a clock reading later than the stamp EXPIRE stored (the
    double sum, not the timestamp 0): the three replies are OK, 1 and
    nil, and the key is gone from the store. *)
Theorem set_expire_get
  (t0 now later : Q) (k v s : str) (secs : Z) (x : Q) (data : dict) :
  int_of_str s = Some secs -> float_of_int secs = Ret x ->
  ~ (fadd now x == 0)%Q -> (fadd now x < later)%Q ->
  handle_command t0 [lit "SET"; k; v] data
  = (Ret (ascii_bytes "+OK" ++ CRLF), set_value k v None data)
  /\ handle_command now [lit "EXPIRE"; k; s] (set_value k v None data)
     = (Ret (ascii_bytes ":1" ++ CRLF),
        assign k (v, Some (fadd now x)) (set_value k v None data))
  /\ handle_command later [lit "GET"; k]
       (assign k (v, Some (fadd now x)) (set_value k v None data))
     = (Ret [x24; x2d; x31; CR; LF],
        remove k (assign k (v, Some (fadd now x)) (set_value k v None data)))
  /\ lookup k
       (remove k (assign k (v, Some (fadd now x)) (set_value k v None data)))
     = None.
Proof.
  intros Hs Hx Hz Hl; repeat split.
  - apply (expire_live now k s v secs x None _ Hs Hx); [|reflexivity].
    unfold set_value; apply lookup_assign_same.
  - apply (get_purges_expired later [lit "GET"; k] _ v (fadd now x));
      [reflexivity | cbn; lia | apply lookup_assign_same | exact Hz | exact Hl].
  - apply lookup_remove_same.
Qed.

(** X19, [SET k v] at 1, [EXPIRE k 1] at 0.1 (the double), [GET k] at
    the double 1.1, which is the stamp, and ten seconds later: the first
    GET still answers the value, the second answers nil. *)
Lemma set_expire_get_witness :
  handle_command (2476979795053773 # 2251799813685248) [lit "GET"; lit "k"]
    [(lit "k", (lit "v", Some (2476979795053773 # 2251799813685248)%Q))]
  = (Ret (ascii_bytes "$1" ++ CRLF ++ ascii_bytes "v" ++ CRLF),
     [(lit "k", (lit "v", Some (2476979795053773 # 2251799813685248)%Q))])
  /\ handle_command 11 [lit "GET"; lit "k"]
       [(lit "k", (lit "v", Some (2476979795053773 # 2251799813685248)%Q))]
     = (Ret [x24; x2d; x31; CR; LF], []).
Proof.
  split; [vm_compute; reflexivity|].
  refine (proj1 (proj2 (proj2
            (set_expire_get 1 (3602879701896397 # 36028797018963968) 11
               (lit "k") (lit "v") (lit "1") 1 1%Q [] eq_refl eq_refl _ _))));
    vm_compute; [discriminate | reflexivity].
Defined.

(* ================================================================== *)
(** * The client against the server *)

Lemma join_send_parts (args : list str) :
  forall h : str,
  join crlf (h :: flat_map (fun arg => [lit "$" ++ dec_str (len arg); arg]) args)
    ++ crlf
  = h ++ crlf ++ concat (map bulk_text args).
Proof.
  induction args as [|a args IH]; intros h.
  - cbn [flat_map join map concat]; now rewrite app_nil_r.
  - cbn [flat_map app join map concat].
    specialize (IH a); cbn [join] in IH |- *.
    unfold bulk_text at 1.
    rewrite <- !app_assoc; do 4 f_equal.
    rewrite <- IH.
    destruct (flat_map (fun arg => [lit "$" ++ dec_str (len arg); arg]) args);
      [reflexivity | now rewrite <- !app_assoc].
Qed.

Lemma send_text (args : list str) :
  join crlf (send_parts args) ++ crlf = keys_text args.
Proof.
  unfold send_parts, keys_text.
  now rewrite join_send_parts, <- !app_assoc.
Qed.

(** X20.  What the client's [send] writes for ASCII arguments is the
    array frame of those arguments, and the server's [get_command] reads
    it back as exactly the arguments, leaving its buffer empty. *)
Theorem client_send_is_parsed (args : list str) :
  Forall is_ascii args ->
  send args = Ret (array_frame (map (fun a => terminated (map byte_of a)) args))
  /\ get_command
       {| buffer := array_frame (map (fun a => terminated (map byte_of a)) args) |}
     = (Ret (Some args), init).
Proof.
  intros Ha; split.
  - pose proof (keys_text_bytes args Ha) as K.
    unfold encoded in K; rewrite <- send_text, encode_app in K.
    change (encode crlf) with (Some CRLF) in K.
    unfold send; destruct (encode (join crlf (send_parts args))) as [x|];
      [|discriminate K].
    now injection K as ->.
  - pose proof (array_at (map (fun a => terminated (map byte_of a)) args) [])
      as G.
    now rewrite app_nil_r, decode_all_ascii in G.
Qed.

(** X20, on the arguments [SET], [k], [v]. *)
Lemma client_send_is_parsed_witness :
  send [lit "SET"; lit "k"; lit "v"]
  = Ret (ascii_bytes "*3" ++ CRLF ++ ascii_bytes "$3" ++ CRLF
         ++ ascii_bytes "SET" ++ CRLF ++ ascii_bytes "$1" ++ CRLF
         ++ ascii_bytes "k" ++ CRLF ++ ascii_bytes "$1" ++ CRLF
         ++ ascii_bytes "v" ++ CRLF).
Proof.
  refine (proj1 (client_send_is_parsed [lit "SET"; lit "k"; lit "v"] _)).
  repeat (constructor || reflexivity).
Defined.

(** *** Replies as the client shows them *)

Lemma lstrip_ws_all_space (w : str) : all_space w -> lstrip_ws w = [].
Proof. induction 1 as [|c w Hc Hw IH]; cbn; [|rewrite Hc]; auto. Qed.

Lemma rstrip_ws_all_space (w : str) : all_space w -> rstrip_ws w = [].
Proof. induction 1 as [|c w Hc Hw IH]; cbn; [|rewrite IH, Hc]; auto. Qed.

Lemma rstrip_ws_app (a w : str) :
  all_space w -> rstrip_ws (a ++ w) = rstrip_ws a.
Proof.
  intros Hw; induction a as [|c a IH]; cbn [app];
    [now rewrite rstrip_ws_all_space|].
  cbn [rstrip_ws]; now rewrite IH.
Qed.

Lemma lstrip_ws_app (a w : str) :
  all_space w ->
  lstrip_ws (a ++ w) = match lstrip_ws a with
                       | [] => []
                       | _ :: _ => lstrip_ws a ++ w
                       end.
Proof.
  intros Hw; induction a as [|c a IH]; cbn [app lstrip_ws];
    [now apply lstrip_ws_all_space|].
  destruct (isspace c); [exact IH | reflexivity].
Qed.

(** Trailing whitespace does not survive [strip]. *)
Lemma strip_app (a w : str) : all_space w -> strip (a ++ w) = strip a.
Proof.
  intros Hw; unfold strip; rewrite lstrip_ws_app by assumption.
  destruct (lstrip_ws a); [reflexivity | now apply rstrip_ws_app].
Qed.

Lemma rstrip_ws_no_space (s : str) : no_space s -> rstrip_ws s = s.
Proof.
  induction 1 as [|c s Hc Hs IH]; [reflexivity|].
  cbn [rstrip_ws]; rewrite IH; destruct s; [now rewrite Hc | reflexivity].
Qed.

Lemma all_space_crlf : all_space crlf.
Proof. repeat constructor. Qed.

Lemma dec_str_plain (n : Z) :
  no_space (dec_str n) /\ no_cr_str (dec_str n)
  /\ map int_byte (dec_str n) = dec n.
Proof.
  unfold no_space, no_cr_str, dec_str, dec.
  assert (G : forall u,
             Forall (fun c => isspace c = false) (map Byte.to_N (digits u))
             /\ Forall (fun c => c <> 13%N) (map Byte.to_N (digits u))
             /\ map int_byte (map Byte.to_N (digits u)) = digits u).
  { induction u as [|u [A [B C]]|u [A [B C]]|u [A [B C]]|u [A [B C]]
                    |u [A [B C]]|u [A [B C]]|u [A [B C]]|u [A [B C]]
                    |u [A [B C]]|u [A [B C]]];
      cbn [digits map]; repeat split;
      try (constructor; [reflexivity || discriminate | assumption]);
      try (rewrite C; reflexivity); constructor. }
  destruct (Z.to_int n) as [u|u]; destruct (G u) as (A & B & C);
    cbn [map]; repeat split; try assumption;
    try (constructor; [reflexivity || discriminate | assumption]);
    now rewrite C.
Qed.

Lemma count_digits_le (b : bytes) : count_digits b <= len b.
Proof.
  unfold count_digits, len; apply inj_le, filter_length_le.
Qed.

(** The text of a number is read back by [int()], if it is within the
    limit on digits. *)
Lemma int_of_dec_str (n : Z) :
  len (dec_str n) <= max_str_digits -> int_of_str (dec_str n) = Some n.
Proof.
  intros Hl; unfold int_of_str; cbv zeta.
  destruct (dec_str_plain n) as (_ & _ & ->).
  replace (count_digits (dec n) <=? max_str_digits) with true;
    [apply int_of_bytes_dec|].
  symmetry; apply Z.leb_le.
  pose proof (count_digits_le (dec n)) as Hc.
  unfold dec_str, len in *; rewrite length_map in Hl; lia.
Qed.

(** One piece of [split("\r\n")]: text without a carriage return, then
    the separator. *)
Lemma split_crlf_go_line (a : str) :
  forall (cur rest : str),
  no_cr_str a ->
  split_crlf_go (a ++ 13%N :: 10%N :: rest) cur
  = (rev cur ++ a) :: split_crlf_go rest [].
Proof.
  induction a as [|c a IH]; intros cur rest Ha.
  - cbn; now rewrite app_nil_r.
  - inversion Ha as [|? ? Hc Ha']; subst.
    cbn [app split_crlf_go].
    destruct (a ++ 13%N :: 10%N :: rest) as [|d t] eqn:E;
      [destruct a; discriminate E|].
    replace (c =? 13)%N with false by (symmetry; now apply N.eqb_neq).
    cbn [andb]; rewrite <- E, IH by assumption.
    cbn [rev]; now rewrite <- app_assoc.
Qed.

Lemma firstn_short {A} (l : list A) (n : nat) :
  len l <= Z.of_nat n -> firstn n l = l.
Proof. intros H; apply firstn_all2; unfold len in H; lia. Qed.

Lemma received_ascii (s : str) :
  is_ascii s -> len s <= 1024 ->
  decode (firstn 1024 (map byte_of s)) = Some s.
Proof.
  intros Ha Hl; rewrite firstn_short; [now apply decode_ascii|].
  unfold len in *; rewrite length_map; exact Hl.
Qed.

(** X21.  What the client's [recv] shows for the server's replies, when
    the reply is ASCII and fits the 1024 bytes of one read: a status
    line shows as its stripped text, an error as "(error) " and the
    stripped text, the nil reply as "(nil)", a bulk reply whose value
    has no carriage return as the value between double quotes, and an
    integer reply as a colon and the number. *)
Theorem client_shows_replies (msg v : str) (n : Z) :
  is_ascii msg -> is_ascii v -> no_cr_str v ->
  len msg + 3 <= 1024 ->
  len (bulk_text v) <= 1024 ->
  len (dec_str n) + 3 <= 1024 ->
  (exists b, simple_string msg = Ret b /\ recv b = Text (strip msg))
  /\ (exists b, error msg = Ret b
                /\ recv b = Text (lit "(error) " ++ strip msg))
  /\ (exists b, bulk_string None = Ret b /\ recv b = Text (lit "(nil)"))
  /\ (exists b, bulk_string (Some v) = Ret b
                /\ recv b = Text ([34%N] ++ v ++ [34%N]))
  /\ (exists b, integer n = Ret b /\ recv b = Text (lit ":" ++ dec_str n)).
Proof.
  intros Hm Hv Hcr Lm Lv Ln.
  destruct (dec_str_plain n) as (Ns & _ & _).
  destruct (dec_str_plain (len v)) as (_ & Nc & _).
  assert (Am : forall c, (c < 128)%N -> is_ascii (c :: msg ++ crlf))
    by (intros c Hc; constructor; [exact Hc|];
        apply is_ascii_app; [exact Hm | repeat constructor]).
  assert (Lc : forall c : N, len (c :: msg ++ crlf) <= 1024)
    by (intros c; unfold len, crlf in *; cbn [length]; rewrite length_app;
        cbn [length]; lia).
  repeat split.
  - exists (map byte_of (43%N :: msg ++ crlf)); split.
    + unfold simple_string, encoded; now rewrite encode_ascii by now apply Am.
    + unfold recv; rewrite received_ascii by (auto; now apply Am).
      cbn [N.eqb Pos.eqb]; now rewrite strip_app by apply all_space_crlf.
  - exists (map byte_of (45%N :: msg ++ crlf)); split.
    + unfold error, encoded; now rewrite encode_ascii by now apply Am.
    + unfold recv; rewrite received_ascii by (auto; now apply Am).
      cbn [N.eqb Pos.eqb]; now rewrite strip_app by apply all_space_crlf.
  - eexists; split; [reflexivity | vm_compute; reflexivity].
  - exists (map byte_of (bulk_text v)); split.
    + unfold bulk_string, encoded.
      now rewrite encode_ascii by now apply is_ascii_bulk_text.
    + unfold recv.
      rewrite received_ascii by (auto; now apply is_ascii_bulk_text).
      unfold bulk_text at 1; cbn [lit map list_ascii_of_string app N_of_ascii
                                    N_of_digits N.add N.mul].
      change (N_of_ascii "$") with 36%N.
      cbn [N.eqb Pos.eqb]; cbv zeta.
      assert (S : split_crlf (bulk_text v) = [36%N :: dec_str (len v); v; []]).
      { unfold split_crlf, bulk_text.
        change (lit "$" ++ dec_str (len v) ++ crlf ++ v ++ crlf)
          with ((36%N :: dec_str (len v)) ++ 13%N :: 10%N :: v ++ crlf).
        rewrite split_crlf_go_line
          by (constructor; [discriminate | exact Nc]).
        change (v ++ crlf) with (v ++ 13%N :: 10%N :: []).
        now rewrite split_crlf_go_line by exact Hcr. }
      change (36%N :: dec_str (len v) ++ crlf ++ v ++ crlf) with (bulk_text v).
      rewrite S; cbn [nth tl]; rewrite int_of_dec_str.
      2:{ unfold bulk_text, len, max_str_digits in *.
          rewrite !length_app in Lv; lia. }
      replace (len v =? -1) with false
        by (symmetry; apply Z.eqb_neq; pose proof (len_nonneg v); lia).
      reflexivity.
  - exists (map byte_of (58%N :: dec_str n ++ crlf)); split.
    + unfold integer, encoded; rewrite encode_ascii; [reflexivity|].
      constructor; [reflexivity|].
      apply is_ascii_app; [apply is_ascii_dec_str | repeat constructor].
    + unfold recv; rewrite received_ascii.
      * cbn [N.eqb Pos.eqb].
        change (58%N :: dec_str n ++ crlf) with ((58%N :: dec_str n) ++ crlf).
        rewrite strip_app by apply all_space_crlf.
        unfold strip; cbn [lstrip_ws].
        change (isspace 58) with false; cbv iota.
        rewrite rstrip_ws_no_space; [reflexivity|].
        constructor; [reflexivity | exact Ns].
      * constructor; [reflexivity|].
        apply is_ascii_app; [apply is_ascii_dec_str | repeat constructor].
      * unfold len, crlf in *; cbn [length]; rewrite length_app;
          cbn [length]; lia.
Qed.

(** X21, on the status PONG, the value [bar] and the integer -2. *)
Lemma client_shows_replies_witness :
  (exists b, simple_string (lit "PONG") = Ret b /\ recv b = Text (lit "PONG"))
  /\ (exists b, error (lit "PONG") = Ret b
                /\ recv b = Text (lit "(error) PONG"))
  /\ (exists b, bulk_string None = Ret b /\ recv b = Text (lit "(nil)"))
  /\ (exists b, bulk_string (Some (lit "bar")) = Ret b
                /\ recv b = Text ([34%N] ++ lit "bar" ++ [34%N]))
  /\ (exists b, integer (-2) = Ret b /\ recv b = Text (lit ":-2")).
Proof.
  refine (client_shows_replies (lit "PONG") (lit "bar") (-2) _ _ _ _ _ _);
    try discriminate; repeat (constructor || reflexivity || discriminate).
Defined.
